(** * MPRAGE-like image synthesis (get_mpragelike.py): embedding and properties

    The script locates the T1w / PDw / MTw volumes of one subject in a
    directory, combines them voxel by voxel with a regularised ratio, cleans
    the numerical artefacts and saves one image per regularisation value.

    The embedding follows the script function by function:
    - [get_img_paths], [get_img_arrays], [mprage_like_img],
      [save_mprage_like] and [main] keep their names;
    - numpy arrays live in a heap of mutable objects addressed by location,
      so that in-place masked assignments and aliasing are visible;
    - voxels are IEEE-754 binary32 numbers ([SpecFloat] at precision 24);
    - exceptions and the threaded world (heap, written files) are carried by
      a small state-and-error monad. *)

From Stdlib Require Import ZArith String Ascii List SpecFloat DecimalString Lia.
From stdpp Require Import base gmap strings list.

Open Scope Z_scope.

(** ** binary32 voxels *)

Module F32.

Abbreviation F := spec_float.

Definition prec : Z := 24.
Definition emax : Z := 128.

Definition add : F → F → F := SFadd prec emax.
Definition sub : F → F → F := SFsub prec emax.
Definition mul : F → F → F := SFmul prec emax.
Definition div : F → F → F := SFdiv prec emax.

(** A Python [int] operand of a float32 array is rounded to float32 (to
    nearest, ties to even).  This is what every numpy version does for an
    [int] that fits 64 bits; for larger ones numpy's behaviour depends on
    its version, and the rounding here then yields an infinity. *)
Definition of_int (z : Z) : F := binary_normalize prec emax z 0 false.

(** The Python literal [0.5]: exactly representable. *)
Definition half : F := binary_normalize prec emax 1 (-1) false.

Definition zero : F := S754_zero false.
Definition inf : F := S754_infinity false.
Definition max_float : F := SFmax_float prec emax.

Definition eqb : F → F → bool := SFeqb.
Definition ltb : F → F → bool := SFltb.
Definition leb : F → F → bool := SFleb.
Definition gtb (x y : F) : bool := SFltb y x.

Definition is_nan (x : F) : bool :=
  match x with S754_nan => true | _ => false end.

Definition is_finite (x : F) : bool :=
  match x with S754_zero _ | S754_finite _ _ _ => true | _ => false end.

(** [np.nan_to_num] with its default arguments: NaN becomes 0.0 and the
    infinities become the largest finite values of the dtype. *)
Definition nan_to_num (x : F) : F :=
  match x with
  | S754_nan => zero
  | S754_infinity false => max_float
  | S754_infinity true => SFopp max_float
  | _ => x
  end.

End F32.

Abbreviation F := spec_float.

(** ** Python strings *)

Module Py.

(** [s.startswith(p)] *)
Fixpoint prefix (p s : string) : bool :=
  match p, s with
  | EmptyString, _ => true
  | String a p', String b s' => Ascii.eqb a b && prefix p' s'
  | String _ _, EmptyString => false
  end.

(** [needle in hay] on [str]. *)
Fixpoint contains (needle hay : string) : bool :=
  prefix needle hay ||
  match hay with
  | EmptyString => false
  | String _ rest => contains needle rest
  end.

(** [a and b] on [str]: the empty string is falsy, and [and] yields one of
    its operands, never a boolean. *)
Definition and_ (a b : string) : string :=
  match a with EmptyString => a | _ => b end.

(** [s.replace(c, "")] for a one-character [c]. *)
Fixpoint remove_char (c : ascii) (s : string) : string :=
  match s with
  | EmptyString => EmptyString
  | String a rest =>
      if Ascii.eqb a c then remove_char c rest
      else String a (remove_char c rest)
  end.

(** [s.split(c)] for a one-character separator: never the empty list. *)
Fixpoint split (c : ascii) (s : string) : list string :=
  match s with
  | EmptyString => [EmptyString]
  | String a rest =>
      if Ascii.eqb a c then EmptyString :: split c rest
      else match split c rest with
           | h :: t => String a h :: t
           | [] => [String a EmptyString]
           end
  end.

(** ASCII white space as [str.strip] and [int] see it. *)
Definition is_space (a : ascii) : bool :=
  let n := N_of_ascii a in
  ((9 <=? n)%N && (n <=? 13)%N) || ((28 <=? n)%N && (n <=? 32)%N).

Fixpoint lstrip (s : string) : string :=
  match s with
  | String a rest => if is_space a then lstrip rest else s
  | EmptyString => EmptyString
  end.

Fixpoint rstrip (s : string) : string :=
  match s with
  | EmptyString => EmptyString
  | String a rest =>
      match rstrip rest with
      | EmptyString => if is_space a then EmptyString else String a EmptyString
      | r => String a r
      end
  end.

Definition strip (s : string) : string := rstrip (lstrip s).

Definition digit_of (a : ascii) : option Z :=
  let n := N_of_ascii a in
  if ((48 <=? n)%N && (n <=? 57)%N)%bool then Some (Z.of_N n - 48) else None.

Definition underscore : ascii := "_"%char.

(** Digits of a decimal literal, most significant first; a single underscore
    is allowed between two digits.  [prev] tells whether the previous
    character was a digit, [acc] is the value read so far. *)
Fixpoint digits (prev : bool) (acc : Z) (s : string) : option Z :=
  match s with
  | EmptyString => if prev then Some acc else None
  | String a rest =>
      match digit_of a with
      | Some d => digits true (10 * acc + d) rest
      | None =>
          if (Ascii.eqb a underscore && prev)%bool then
            match rest with
            | String b _ =>
                match digit_of b with
                | Some _ => digits false acc rest
                | None => None
                end
            | EmptyString => None
            end
          else None
      end
  end.

(** [int(s)] for a [str] in base 10; [None] stands for [ValueError]. *)
Definition int (s : string) : option Z :=
  match strip s with
  | String "+"%char rest => digits false 0 rest
  | String "-"%char rest => Z.opp <$> digits false 0 rest
  | t => digits false 0 t
  end.

(** [str(n)] for an [int]. *)
Definition str_of_int (n : Z) : string := NilZero.string_of_int (Z.to_int n).

(** Command-line values: [argparse] hands over a [str] when the flag is
    given and the declared default (an [int] for [--echo] and [--reg])
    when it is not. *)
Inductive value :=
| Str (s : string)
| Int (n : Z).

(** [str(v)], also what the [%s] conversion prints. *)
Definition str (v : value) : string :=
  match v with Str s => s | Int n => str_of_int n end.

(** [os.path.join(a, b)] on POSIX. *)
Fixpoint ends_with_slash (s : string) : bool :=
  match s with
  | EmptyString => false
  | String a EmptyString => Ascii.eqb a "/"%char
  | String _ rest => ends_with_slash rest
  end.

Definition starts_with_slash (s : string) : bool :=
  match s with
  | String a _ => Ascii.eqb a "/"%char
  | EmptyString => false
  end.

Definition path_join (a b : string) : string :=
  if starts_with_slash b then b
  else
    match a with
    | EmptyString => b
    | _ => if ends_with_slash a then a +:+ b else a +:+ "/" +:+ b
    end.

End Py.

(** ** Objects, exceptions and the world *)

Definition loc := nat.

(** A numpy array, flattened to the sequence of its elements; two arrays
    have the same shape when they have the same length (broadcasting between
    different shapes is outside the model and reported as [ValueError]). *)
Inductive ndarray :=
| F32Array (data : list F)
| BoolArray (mask : list bool).

Definition affine := list (list F).
Definition header := string.

(** A NIfTI file as nibabel reads it, voxels already converted by
    [get_fdata(dtype='float32')]. *)
Record nifti := Nifti {
  nii_data : list F;
  nii_affine : affine;
  nii_header : header }.

Inductive exn :=
| UnboundLocalError (var : string)
| ValueError
| TypeError
| IndexError
| FileNotFoundError
| ImageFileError
| DanglingReference.

(** The part of the world the script changes.  [calls] is a ghost log of the
    calls of [mprage_like_img] (regularisation value and contrast), kept
    only to count them. *)
Record world := World {
  heap : gmap loc ndarray;
  made_dirs : list string;
  written : list (string * list F * affine);
  stdout : list string;
  calls : list (Z * string) }.

(** The part of the world the script only reads. *)
Record env := Env {
  listdir : string → option (list string);
  nib_load : string → option nifti;
  path_exists : string → bool }.

Definition set_heap (f : gmap loc ndarray → gmap loc ndarray) (σ : world) : world :=
  World (f (heap σ)) (made_dirs σ) (written σ) (stdout σ) (calls σ).

Inductive result (A : Type) :=
| Ok (a : A)
| Raise (e : exn).
Arguments Ok {A} a.
Arguments Raise {A} e.

Definition M (A : Type) : Type := world → world * result A.

#[global] Instance M_ret : MRet M := λ A a σ, (σ, Ok a).
#[global] Instance M_bind : MBind M := λ A B f m σ,
  match m σ with
  | (σ', Ok a) => f a σ'
  | (σ', Raise e) => (σ', Raise e)
  end.
#[global] Instance M_throw : MThrow exn M := λ A e σ, (σ, Raise e).

(** Reading a local variable that no executed branch has assigned. *)
Definition read_local {A} (name : string) (v : option A) : M A :=
  match v with
  | Some a => mret a
  | None => mthrow (UnboundLocalError name)
  end.

(** [for x in xs: body], the loop's assigned locals threaded as [s]. *)
Fixpoint for_each {A S} (body : S → A → M S) (xs : list A) (s : S) : M S :=
  match xs with
  | [] => mret s
  | x :: rest => s' ← body s x; for_each body rest s'
  end.

Definition fresh_loc (σ : world) : loc := fresh (dom (heap σ)).

Definition alloc (a : ndarray) : M loc := λ σ,
  let l := fresh_loc σ in (set_heap (<[l := a]>) σ, Ok l).

Definition store (l : loc) (a : ndarray) : M unit := λ σ,
  (set_heap (<[l := a]>) σ, Ok tt).

Definition read_f32 (l : loc) : M (list F) := λ σ,
  match heap σ !! l with
  | Some (F32Array xs) => (σ, Ok xs)
  | Some (BoolArray _) => (σ, Raise TypeError)
  | None => (σ, Raise DanglingReference)
  end.

Definition read_bool (l : loc) : M (list bool) := λ σ,
  match heap σ !! l with
  | Some (BoolArray bs) => (σ, Ok bs)
  | Some (F32Array _) => (σ, Raise TypeError)
  | None => (σ, Raise DanglingReference)
  end.

(** ** numpy operations: every operator returns a new array *)

Module Np.

Definition map_f32 (f : F → F) (a : loc) : M loc :=
  xs ← read_f32 a; alloc (F32Array (f <$> xs)).

Definition zip_f32 (f : F → F → F) (a b : loc) : M loc :=
  xs ← read_f32 a;
  ys ← read_f32 b;
  if decide (length xs = length ys) then alloc (F32Array (zip_with f xs ys))
  else mthrow ValueError.

(** [a - k], [a + k], [k * a] for a scalar [k] *)
Definition sub_scalar (a : loc) (k : F) : M loc := map_f32 (λ x, F32.sub x k) a.
Definition add_scalar (a : loc) (k : F) : M loc := map_f32 (λ x, F32.add x k) a.
Definition scalar_mul (k : F) (a : loc) : M loc := map_f32 (λ x, F32.mul k x) a.

(** [a + b], [a / b] *)
Definition add : loc → loc → M loc := zip_f32 F32.add.
Definition divide : loc → loc → M loc := zip_f32 F32.div.

Definition nan_to_num : loc → M loc := map_f32 F32.nan_to_num.

(** [a.astype(np.float32)]: a copy even when the dtype is unchanged *)
Definition astype_f32 : loc → M loc := map_f32 id.

(** [a == k], [a > k], [a < k]: a new boolean array *)
Definition compare_scalar (p : F → bool) (a : loc) : M loc :=
  xs ← read_f32 a; alloc (BoolArray (p <$> xs)).

Definition masked (v : F) (xs : list F) (bs : list bool) : list F :=
  zip_with (λ x (b : bool), if b then v else x) xs bs.

(** [a[m] = v]: in place *)
Definition setitem_mask (a m : loc) (v : F) : M unit :=
  xs ← read_f32 a;
  bs ← read_bool m;
  if decide (length xs = length bs) then store a (F32Array (masked v xs bs))
  else mthrow IndexError.

End Np.

(** ** Operating system and nibabel *)

Definition os_listdir (E : env) (path : string) : M (list string) :=
  match listdir E path with
  | Some files => mret files
  | None => mthrow FileNotFoundError
  end.

Definition os_path_exists (E : env) (path : string) : M bool := λ σ,
  (σ, Ok (path_exists E path || bool_decide (path ∈ made_dirs σ))).

Definition modify (f : world → world) : M unit := λ σ, (f σ, Ok tt).

Definition os_makedirs (path : string) : M unit :=
  modify (λ σ, World (heap σ) (made_dirs σ ++ [path]) (written σ) (stdout σ) (calls σ)).

Definition print (line : string) : M unit :=
  modify (λ σ, World (heap σ) (made_dirs σ) (written σ) (stdout σ ++ [line]) (calls σ)).

Definition log_call (reg : Z) (weight : string) : M unit :=
  modify (λ σ, World (heap σ) (made_dirs σ) (written σ) (stdout σ)
                     (calls σ ++ [(reg, weight)])).

(** [nib.save(nib.Nifti1Image(data, affine), path)] *)
Definition nib_save (data : loc) (aff : affine) (path : string) : M unit :=
  xs ← read_f32 data;
  modify (λ σ, World (heap σ) (made_dirs σ) (written σ ++ [(path, xs, aff)])
                     (stdout σ) (calls σ)).

(** What one branch of [get_img_arrays] assigns: the float32 array of the
    voxels (a new object at each load), the affine and the header. *)
Record binding := Binding {
  b_data : loc;
  b_affine : affine;
  b_header : header }.

(** [img = nib.load(path)] followed by [img.get_fdata(dtype='float32')],
    [img.affine] and [img.header]. *)
Definition load_volume (E : env) (path : string) : M binding :=
  match nib_load E path with
  | None => mthrow ImageFileError
  | Some img =>
      d ← alloc (F32Array (nii_data img));
      mret (Binding d (nii_affine img) (nii_header img))
  end.

(** ** The script *)

(** Local variables of [get_img_arrays], unbound until a branch runs. *)
Record locals := Locals {
  t1w : option binding;
  pdw : option binding;
  mtw : option binding }.

Record volumes := Volumes {
  t1w_data : loc; pdw_data : loc; mtw_data : loc;
  t1w_header : header; pdw_header : header; mtw_header : header;
  t1w_affine : affine; pdw_affine : affine; mtw_affine : affine }.

Definition get_img_paths (E : env) (path2img : string) (echo : Py.value) : M (list string) :=
  let echo_num := "_e" +:+ Py.str echo in
  files ← os_listdir E path2img;
  let nii_files := List.filter (λ f, Py.contains (Py.and_ ".nii" echo_num) f) files in
  nii_files ←
    match nii_files with
    | [] =>
        files ← os_listdir E path2img;
        mret (List.filter (λ f, Py.contains ".nii" f) files)
    | _ => mret nii_files
    end;
  let magn_files :=
    List.filter (λ m, negb (Py.contains "_ph" m || Py.contains "phase" m)) nii_files in
  let fullpath2imgs := (λ magn, Py.path_join path2img magn) <$> magn_files in
  mret fullpath2imgs.

(** Body of the loop of [get_img_arrays]. *)
Definition bind_contrast (E : env) (vars : locals) (mpm : string) : M locals :=
  if Py.contains "t1" mpm || Py.contains "T1" mpm then
    b ← load_volume E mpm;
    mret (Locals (Some b) (pdw vars) (mtw vars))
  else if Py.contains "pd" mpm || Py.contains "PD" mpm then
    b ← load_volume E mpm;
    mret (Locals (t1w vars) (Some b) (mtw vars))
  else if Py.contains "mt" mpm || Py.contains "MT" mpm then
    b ← load_volume E mpm;
    mret (Locals (t1w vars) (pdw vars) (Some b))
  else mret vars.

Definition get_img_arrays (E : env) (fullpath2img : list string) : M volumes :=
  vars ← for_each (bind_contrast E) fullpath2img (Locals None None None);
  t1d ← read_local "t1w_data" (b_data <$> t1w vars);
  pdd ← read_local "pdw_data" (b_data <$> pdw vars);
  mtd ← read_local "mtw_data" (b_data <$> mtw vars);
  t1h ← read_local "t1w_header" (b_header <$> t1w vars);
  pdh ← read_local "pdw_header" (b_header <$> pdw vars);
  mth ← read_local "mtw_header" (b_header <$> mtw vars);
  t1a ← read_local "t1w_affine" (b_affine <$> t1w vars);
  pda ← read_local "pdw_affine" (b_affine <$> pdw vars);
  mta ← read_local "mtw_affine" (b_affine <$> mtw vars);
  mret (Volumes t1d pdd mtd t1h pdh mth t1a pda mta).

Definition mprage_like_img (t1w_data pdw_data mtw_data : loc) (reg : Z) (weight : string)
  : M loc :=
  log_call reg weight;;
  mprage_like ←
    (if String.eqb weight "all" then
       num ← Np.sub_scalar t1w_data (F32.of_int reg);
       s ← Np.add pdw_data mtw_data;
       hs ← Np.scalar_mul F32.half s;
       den ← Np.add_scalar hs (F32.of_int reg);
       q ← Np.divide num den;
       mret (Some q)
     else if String.eqb weight "MT" then
       num ← Np.sub_scalar t1w_data (F32.of_int reg);
       den ← Np.add_scalar mtw_data (F32.of_int reg);
       q ← Np.divide num den;
       mret (Some q)
     else if String.eqb weight "PD" then
       num ← Np.sub_scalar t1w_data (F32.of_int reg);
       den ← Np.add_scalar pdw_data (F32.of_int reg);
       q ← Np.divide num den;
       mret (Some q)
     else mret None);
  mprage_like ← read_local "mprage_like" mprage_like;
  mprage_like_noNaN ← Np.nan_to_num mprage_like;
  let mprage_like_noNaN_inf := mprage_like_noNaN in
  m ← Np.compare_scalar (λ x, F32.eqb x F32.inf) mprage_like_noNaN_inf;
  Np.setitem_mask mprage_like_noNaN_inf m (F32.of_int 0);;
  m ← Np.compare_scalar (λ x, F32.gtb x (F32.of_int 500)) mprage_like_noNaN_inf;
  Np.setitem_mask mprage_like_noNaN_inf m (F32.of_int 0);;
  let mprage_like_noNaN_noInf_nz := mprage_like_noNaN_inf in
  m ← Np.compare_scalar (λ x, F32.ltb x (F32.of_int 0)) mprage_like_noNaN_noInf_nz;
  Np.setitem_mask mprage_like_noNaN_noInf_nz m (F32.of_int 0);;
  let mprage_like_final := mprage_like_noNaN_noInf_nz in
  mret mprage_like_final.

(** ['%s_%s_e%s_%s_reg%s.nii' % (subID, mplike_name, echo, weight, reg)] *)
Definition img_name (subID mplike_name echo weight reg : string) : string :=
  subID +:+ "_" +:+ mplike_name +:+ "_e" +:+ echo +:+ "_" +:+ weight
        +:+ "_reg" +:+ reg +:+ ".nii".

Definition save_mprage_like (E : env) (mprage_like_data : loc) (mprage_like_affine : affine)
    (path2save subID : string) (reg echo : Py.value) (weight : string) : M unit :=
  let mplike_name := "mprage-like" in
  let fullsavepath := Py.path_join path2save mplike_name in
  pathExist ← os_path_exists E fullsavepath;
  (if negb pathExist then os_makedirs fullsavepath else mret tt);;
  mprage_like_data ← Np.astype_f32 mprage_like_data;
  let mprage_img := (mprage_like_data, mprage_like_affine) in
  let mprage_img_name :=
    if String.eqb weight "all" then
      Some (img_name subID mplike_name (Py.str echo) weight (Py.str reg))
    else if String.eqb weight "PD" then
      Some (img_name subID mplike_name (Py.str echo) weight (Py.str reg))
    else if String.eqb weight "MT" then
      Some (img_name subID mplike_name (Py.str echo) weight (Py.str reg))
    else None in
  mprage_img_name ← read_local "mprage_img_name" mprage_img_name;
  let fullpath2save := Py.path_join fullsavepath mprage_img_name in
  nib_save (fst mprage_img) (snd mprage_img) (Py.path_join fullsavepath mprage_img_name);;
  print ("MPRAGE-like image saved to the following filename: " +:+ fullpath2save).

(** The value of [reg] after the first statements of [main]. *)
Inductive reg_spec :=
| RegInt (n : Z)
| RegList (rs : list string).

Definition parse_reg (reg : Py.value) : M reg_spec :=
  match reg with
  | Py.Int _ => mthrow TypeError
  | Py.Str s =>
      if Py.contains "[" s then
        let reg := Py.remove_char "["%char s in
        let reg := Py.remove_char "]"%char reg in
        mret (RegList (Py.split ","%char reg))
      else
        match Py.int s with
        | Some n => mret (RegInt n)
        | None => mthrow ValueError
        end
  end.

Definition py_int (r : string) : M Z :=
  match Py.int r with
  | Some n => mret n
  | None => mthrow ValueError
  end.

Definition main (E : env) (path2img : string) (echo reg : Py.value)
    (subID contrast path2save : string) : M unit :=
  reg ← parse_reg reg;
  fullpath2imgs ← get_img_paths E path2img echo;
  v ← get_img_arrays E fullpath2imgs;
  match reg with
  | RegInt reg =>
      mprage_like ← mprage_like_img (t1w_data v) (pdw_data v) (mtw_data v) reg contrast;
      save_mprage_like E mprage_like (t1w_affine v) path2save subID (Py.Int reg) echo contrast
  | RegList reg =>
      for_each (λ (_ : unit) r,
          n ← py_int r;
          mprage_like ← mprage_like_img (t1w_data v) (pdw_data v) (mtw_data v) n contrast;
          save_mprage_like E mprage_like (t1w_affine v) path2save subID (Py.Str r) echo contrast)
        reg tt
  end.

(** ** Vocabulary of the specification *)

(** The three admissible values of [--contrast]. *)
Inductive ContrastMode := ALL | PD | MT.

Definition weight_of (m : ContrastMode) : string :=
  match m with ALL => "all" | PD => "PD" | MT => "MT" end.

(** The three contrast kinds a file can be bound to. *)
Inductive kind := T1w | PDw | MTw.

#[global] Instance kind_eq_dec : EqDecision kind.
Proof. solve_decision. Defined.

Definition slot (k : kind) (vars : locals) : option binding :=
  match k with T1w => t1w vars | PDw => pdw vars | MTw => mtw vars end.

Definition set_slot (k : kind) (b : binding) (vars : locals) : locals :=
  match k with
  | T1w => Locals (Some b) (pdw vars) (mtw vars)
  | PDw => Locals (t1w vars) (Some b) (mtw vars)
  | MTw => Locals (t1w vars) (pdw vars) (Some b)
  end.

(** Which branch of the loop of [get_img_arrays] a path takes. *)
Definition branch_of (mpm : string) : option kind :=
  if Py.contains "t1" mpm || Py.contains "T1" mpm then Some T1w
  else if Py.contains "pd" mpm || Py.contains "PD" mpm then Some PDw
  else if Py.contains "mt" mpm || Py.contains "MT" mpm then Some MTw
  else None.

(** The last path of a listing that takes branch [k]. *)
Definition last_match (k : kind) (paths : list string) : option string :=
  last (List.filter (λ p, bool_decide (branch_of p = Some k)) paths).

(** The first path of a listing that takes branch [k]. *)
Definition first_match (k : kind) (paths : list string) : option string :=
  head (List.filter (λ p, bool_decide (branch_of p = Some k)) paths).

(** The contrasts a mode's formula reads. *)
Definition required (m : ContrastMode) : list kind :=
  match m with
  | ALL => [T1w; PDw; MTw]
  | PD => [T1w; PDw]
  | MT => [T1w; MTw]
  end.

(** The raw ratio of one voxel, as the specification writes it. *)
Definition raw_ratio (m : ContrastMode) (reg : Z) (t1 pd mt : F) : F :=
  let r := F32.of_int reg in
  match m with
  | ALL => F32.div (F32.sub t1 r) (F32.add (F32.mul F32.half (F32.add pd mt)) r)
  | MT => F32.div (F32.sub t1 r) (F32.add mt r)
  | PD => F32.div (F32.sub t1 r) (F32.add pd r)
  end.

(** What the clean-up statements of [mprage_like_img] do to one voxel:
    [np.nan_to_num], then the three masked assignments. *)
Definition cleanup (x : F) : F :=
  let a := F32.nan_to_num x in
  let b := if F32.eqb a F32.inf then F32.of_int 0 else a in
  let c := if F32.gtb b (F32.of_int 500) then F32.of_int 0 else b in
  if F32.ltb c (F32.of_int 0) then F32.of_int 0 else c.

(** The four clean-up steps in the words of the specification. *)
Definition spec_step1 (x : F) : F := if F32.is_nan x then F32.zero else x.
Definition spec_step2 (x : F) : F := if F32.eqb x F32.inf then F32.zero else x.
Definition spec_step3 (x : F) : F := if F32.gtb x (F32.of_int 500) then F32.zero else x.
Definition spec_step4 (x : F) : F := if F32.ltb x F32.zero then F32.zero else x.
Definition spec_cleanup (x : F) : F := spec_step4 (spec_step3 (spec_step2 (spec_step1 x))).

(** The array of raw ratios, operator by operator as numpy evaluates it. *)
Definition raw_array (m : ContrastMode) (reg : Z) (xs ys zs : list F) : list F :=
  let r := F32.of_int reg in
  let num := (λ x, F32.sub x r) <$> xs in
  match m with
  | ALL =>
      zip_with F32.div num
        ((λ x, F32.add x r) <$> ((λ x, F32.mul F32.half x) <$> zip_with F32.add ys zs))
  | MT => zip_with F32.div num ((λ x, F32.add x r) <$> zs)
  | PD => zip_with F32.div num ((λ x, F32.add x r) <$> ys)
  end.

(** The contrast kind of a file as the specification words it: only the
    file name counts, letter case does not, and T1 is tried before PD
    before MT. *)
Definition lower_ascii (a : ascii) : ascii :=
  let n := N_of_ascii a in
  if ((65 <=? n)%N && (n <=? 90)%N)%bool then ascii_of_N (n + 32) else a.

Fixpoint lower (s : string) : string :=
  match s with
  | EmptyString => EmptyString
  | String a rest => String (lower_ascii a) (lower rest)
  end.

Fixpoint basename (p : string) : string :=
  match p with
  | EmptyString => EmptyString
  | String a rest =>
      if Py.contains "/" rest then basename rest
      else if Ascii.eqb a "/"%char then rest else p
  end.

Definition spec_kind_of (path : string) : option kind :=
  let f := lower (basename path) in
  if Py.contains "t1" f then Some T1w
  else if Py.contains "pd" f then Some PDw
  else if Py.contains "mt" f then Some MTw
  else None.

(** The first filter of the selector as the specification words it. *)
Definition spec_first_filter (echo : Py.value) (files : list string) : list string :=
  List.filter (λ f, Py.contains ".nii" f && Py.contains ("_e" +:+ Py.str echo) f) files.

(** The regularisation value a token of a sweep stands for. *)
Definition reg_value (r : string) : Z := default 0 (Py.int r).

Definition parses (r : string) : bool := bool_decide (is_Some (Py.int r)).

(** ** A small subject directory, for concrete runs *)

Definition demo_volume (n : Z) : nifti :=
  Nifti [F32.of_int n; F32.of_int (2 * n)] [] "hdr".

Definition demo_env (files : list string) (load : string → option nifti) : env :=
  Env (λ d, if String.eqb d "/data" then Some files else None) load (λ _, false).

Definition demo_load (path : string) : option nifti :=
  if String.eqb path "/data/sub1_t1_e1.nii" then Some (demo_volume 150)
  else if String.eqb path "/data/sub1_pd_e1.nii" then Some (demo_volume 100)
  else if String.eqb path "/data/sub1_mt_e1.nii" then Some (demo_volume 100)
  else if String.eqb path "/data/sub1_T1_run2_e1.nii" then Some (demo_volume 7)
  else None.

Definition demo_files : list string :=
  ["sub1_t1_e1.nii"; "sub1_pd_e1.nii"; "sub1_mt_e1.nii"; "sub1_t1_e1_ph.nii"].

Definition empty_world : world := World ∅ [] [] [] [].

Definition demo_E : env := demo_env demo_files demo_load.

Definition demo_paths : list string :=
  ["/data/sub1_t1_e1.nii"; "/data/sub1_pd_e1.nii"; "/data/sub1_mt_e1.nii"].

Definition demo_volumes : volumes :=
  Volumes 0%nat 1%nat 2%nat "hdr" "hdr" "hdr" [] [] [].

(** The world once the three demo volumes are loaded. *)
Definition demo_loaded : world := (get_img_arrays demo_E demo_paths empty_world).1.

Definition demo_t1 : list F := nii_data (demo_volume 150).
Definition demo_pd : list F := nii_data (demo_volume 100).

(** A directory with two T1w candidates. *)
Definition two_t1_files : list string :=
  ["sub1_t1_e1.nii"; "sub1_pd_e1.nii"; "sub1_mt_e1.nii"; "sub1_T1_run2_e1.nii"].

(** Directories that lack one contrast. *)
Definition no_pd_files : list string := ["sub1_t1_e1.nii"; "sub1_mt_e1.nii"].
Definition no_mt_files : list string := ["sub1_t1_e1.nii"; "sub1_pd_e1.nii"].

(** Three arrays of two voxels each, already in the heap. *)
Definition demo_heap_world : world :=
  World (<[2%nat := F32Array [F32.of_int 100; F32.of_int 0]]>
        (<[1%nat := F32Array [F32.of_int 100; F32.of_int 0]]>
        (<[0%nat := F32Array [F32.of_int 150; F32.of_int 7]]> ∅))) [] [] [] [].

(** ** Predicates used in the statements *)

(** Everything but the heap is as before. *)
Definition same_io (σ σ' : world) : Prop :=
  made_dirs σ' = made_dirs σ ∧ written σ' = written σ ∧
  stdout σ' = stdout σ ∧ calls σ' = calls σ.

(** Objects were only added: every object of [σ] is in [σ'], unchanged. *)
Definition grows (σ σ' : world) : Prop := heap σ ⊆ heap σ' ∧ same_io σ σ'.

(** The three arguments of the compositor are float32 arrays of one shape. *)
Definition inputs_at (t1 pd mt : loc) (xs ys zs : list F) (σ : world) : Prop :=
  heap σ !! t1 = Some (F32Array xs) ∧
  heap σ !! pd = Some (F32Array ys) ∧
  heap σ !! mt = Some (F32Array zs) ∧
  length xs = length ys ∧ length ys = length zs.

(** The file a call of [save_mprage_like] writes. *)
Definition artifact_path (path2save subID : string) (reg echo : Py.value) (weight : string)
  : string :=
  Py.path_join (Py.path_join path2save "mprage-like")
    (img_name subID "mprage-like" (Py.str echo) weight (Py.str reg)).

(** The body of the sweep loop of [main]. *)
Definition sweep_body (E : env) (v : volumes) (path2save subID : string) (echo : Py.value)
    (contrast : string) : unit → string → M unit :=
  λ _ r,
    n ← py_int r;
    mprage_like ← mprage_like_img (t1w_data v) (pdw_data v) (mtw_data v) n contrast;
    save_mprage_like E mprage_like (t1w_affine v) path2save subID (Py.Str r) echo contrast.

(** The elements of a bracketed regularisation spec. *)
Definition tokens (s : string) : list string :=
  Py.split ","%char (Py.remove_char "]"%char (Py.remove_char "["%char s)).

(** The elements of a sweep before the first one [int] rejects. *)
Fixpoint good_prefix (rs : list string) : list string :=
  match rs with
  | [] => []
  | r :: rest => if parses r then r :: good_prefix rest else []
  end.

(** What the sweep persists for the element [r]. *)
Definition artifact (m : ContrastMode) (v : volumes) (xs ys zs : list F)
    (path2save subID : string) (echo : Py.value) (r : string)
  : string * list F * affine :=
  (artifact_path path2save subID (Py.Str r) echo (weight_of m),
   cleanup <$> raw_array m (reg_value r) xs ys zs,
   t1w_affine v).

(** The binding [b] holds the volume stored in the file [p]. *)
Definition bound_to (E : env) (σ : world) (p : string) (b : binding) : Prop :=
  ∃ f, nib_load E p = Some f ∧ b_affine b = nii_affine f ∧ b_header b = nii_header f ∧
       heap σ !! b_data b = Some (F32Array (nii_data f)).

Definition bound_volume (E : env) (σ : world) (p : string)
    (d : loc) (a : affine) (h : header) : Prop :=
  bound_to E σ p (Binding d a h).

(** The slot of kind [k] after the loop over [paths]. *)
Definition slot_after (E : env) (σ' : world) (paths : list string) (vars vars' : locals)
    (k : kind) : Prop :=
  match last_match k paths with
  | Some p => ∃ b, slot k vars' = Some b ∧ bound_to E σ' p b
  | None => slot k vars' = slot k vars
  end.

(** Every candidate that takes a branch is a readable image. *)
Definition loadable (E : env) (paths : list string) : Prop :=
  ∀ p, p ∈ paths → branch_of p ≠ None → is_Some (nib_load E p).

(** The variable the [return] of [get_img_arrays] reads first for a kind. *)
Definition data_var (k : kind) : string :=
  match k with T1w => "t1w_data" | PDw => "pdw_data" | MTw => "mtw_data" end.

(** The [return] statement of [get_img_arrays] on the locals [vars]. *)
Definition volumes_of (vars : locals) : result volumes :=
  match t1w vars, pdw vars, mtw vars with
  | Some a, Some b, Some c =>
      Ok (Volumes (b_data a) (b_data b) (b_data c)
                  (b_header a) (b_header b) (b_header c)
                  (b_affine a) (b_affine b) (b_affine c))
  | None, _, _ => Raise (UnboundLocalError (data_var T1w))
  | Some _, None, _ => Raise (UnboundLocalError (data_var PDw))
  | Some _, Some _, None => Raise (UnboundLocalError (data_var MTw))
  end.

Definition has_token (lc uc path : string) : bool :=
  Py.contains lc path || Py.contains uc path.

(** One pass of the loop body loads [p] into the slot [k], as a new array,
    and leaves the other slots alone. *)
Definition binds_only (E : env) (k : kind) (p : string) (vars : locals) (σ : world) : Prop :=
  ∃ σ' vars' b,
    bind_contrast E vars p σ = (σ', Ok vars') ∧
    slot k vars' = Some b ∧ bound_to E σ' p b ∧ heap σ !! b_data b = None ∧
    ∀ k', k' ≠ k → slot k' vars' = slot k' vars.

(** ** Further vocabulary *)

(** [echo_num] of [get_img_paths]. *)
Definition echo_token (echo : Py.value) : string := "_e" +:+ Py.str echo.

(** The test of the [magn_files] comprehension, before its [not]. *)
Definition is_phase (f : string) : bool := Py.contains "_ph" f || Py.contains "phase" f.

Definition has_echo_token (echo : Py.value) (f : string) : bool :=
  Py.contains (echo_token echo) f.

(** Finite and between 0 and 500. *)
Definition in_range (x : F) : bool :=
  F32.is_finite x && F32.leb (F32.of_int 0) x && F32.leb x (F32.of_int 500).

(** The [if]/[elif] chain at the head of [mprage_like_img]. *)
Definition ratio_branch (t1w_data pdw_data mtw_data : loc) (reg : Z) (weight : string)
  : M (option loc) :=
  if String.eqb weight "all" then
    num ← Np.sub_scalar t1w_data (F32.of_int reg);
    s ← Np.add pdw_data mtw_data;
    hs ← Np.scalar_mul F32.half s;
    den ← Np.add_scalar hs (F32.of_int reg);
    q ← Np.divide num den;
    mret (Some q)
  else if String.eqb weight "MT" then
    num ← Np.sub_scalar t1w_data (F32.of_int reg);
    den ← Np.add_scalar mtw_data (F32.of_int reg);
    q ← Np.divide num den;
    mret (Some q)
  else if String.eqb weight "PD" then
    num ← Np.sub_scalar t1w_data (F32.of_int reg);
    den ← Np.add_scalar pdw_data (F32.of_int reg);
    q ← Np.divide num den;
    mret (Some q)
  else mret None.

(** The world once a compositor call is entered in the ghost log. *)
Definition logged (reg : Z) (weight : string) (σ : world) : world :=
  World (heap σ) (made_dirs σ) (written σ) (stdout σ) (calls σ ++ [(reg, weight)]).

(** Every assigned slot holds an array allocated since [σ0], and two slots
    never share their array. *)
Definition slots_fresh (σ0 σ : world) (vars : locals) : Prop :=
  (∀ k b, slot k vars = Some b →
          heap σ0 !! b_data b = None ∧ is_Some (heap σ !! b_data b)) ∧
  (∀ k k' b b', k ≠ k' → slot k vars = Some b → slot k' vars = Some b' →
                b_data b ≠ b_data b').

(** [fullsavepath] of [save_mprage_like]. *)
Definition save_dir (path2save : string) : string := Py.path_join path2save "mprage-like".

(** [os.path.exists] in the world [σ]. *)
Definition dir_exists (E : env) (σ : world) (p : string) : bool :=
  path_exists E p || bool_decide (p ∈ made_dirs σ).

Fixpoint count_char (c : ascii) (s : string) : nat :=
  match s with
  | EmptyString => 0
  | String a rest => (if Ascii.eqb a c then 1 else 0) + count_char c rest
  end.

(** A single-echo directory, a directory without images and one with a
    JSON sidecar. *)
Definition single_echo_files : list string :=
  ["sub1_T1.nii"; "sub1_PD.nii"; "sub1_MT.nii"; "sub1_T1_phase.nii"; "notes.txt"].

Definition no_image_files : list string := ["notes.txt"; "protocol.pdf"].

Definition sidecar_files : list string :=
  ["sub1_t1_e1.json"; "sub1_t1_e1.nii"; "sub1_pd_e1.nii"; "sub1_mt_e1.nii"].

(** * Properties *)

(** ** One voxel through the clean-up *)

Section Voxels.

Lemma SFcompare_antisym (x y : F) (c : comparison) :
  SFcompare x y = Some c → SFcompare y x = Some (CompOpp c).
Proof.
  destruct x as [sx|sx| |sx mx ex], y as [sy|sy| |sy my ey]; simpl;
    try discriminate;
    try (intros [= <-]; repeat match goal with b : bool |- _ => destruct b end;
         reflexivity).
  intros [= <-]. f_equal.
  assert (Hp : Pos.compare_cont Eq my mx = CompOpp (Pos.compare_cont Eq mx my))
    by (rewrite Pos.compare_cont_antisym; reflexivity).
  rewrite (Z.compare_antisym ex ey), Hp.
  destruct sx, sy; simpl; try reflexivity;
    destruct (Z.compare ex ey); simpl; try reflexivity;
    destruct (Pos.compare_cont Eq mx my); reflexivity.
Qed.

Lemma leb_not_gtb (x y : F) : F32.leb x y = true → F32.gtb x y = false.
Proof.
  unfold F32.leb, F32.gtb, SFleb, SFltb.
  destruct (SFcompare x y) as [c|] eqn:Hc; [|discriminate].
  rewrite (SFcompare_antisym _ _ _ Hc). by destruct c.
Qed.

Lemma leb_not_ltb (x y : F) : F32.leb x y = true → F32.ltb y x = false.
Proof. apply leb_not_gtb. Qed.

Lemma ltb_not_gtb (x y : F) : F32.ltb x y = true → F32.gtb x y = false.
Proof.
  unfold F32.ltb, F32.gtb, SFltb.
  destruct (SFcompare x y) as [c|] eqn:Hc; [|discriminate].
  rewrite (SFcompare_antisym _ _ _ Hc). by destruct c.
Qed.

Lemma finite_not_inf (x : F) : F32.is_finite x = true → F32.eqb x F32.inf = false.
Proof. by destruct x as [| | |[]]. Qed.

Lemma nan_to_num_finite (x : F) : F32.is_finite x = true → F32.nan_to_num x = x.
Proof. by destruct x. Qed.

(** A finite voxel between 0 and 500 passes the four statements unchanged. *)
Lemma cleanup_in_range (x : F) :
  F32.is_finite x = true →
  F32.leb (F32.of_int 0) x = true →
  F32.leb x (F32.of_int 500) = true →
  cleanup x = x.
Proof.
  intros Hfin H0 H500. unfold cleanup.
  rewrite (nan_to_num_finite _ Hfin). cbv zeta.
  rewrite (finite_not_inf _ Hfin), (leb_not_gtb _ _ H500), (leb_not_ltb _ _ H0).
  reflexivity.
Qed.

Lemma ltb_zero_cases (x : F) :
  F32.ltb x (F32.of_int 0) = true →
  x = S754_infinity true ∨ ∃ m e, x = S754_finite true m e.
Proof. destruct x as [s|[]| |[] m e]; try discriminate; eauto. Qed.

(** NaN, both infinities, values above 500 and negative values end as +0. *)
Lemma cleanup_out_of_range (x : F) :
  F32.is_nan x = true ∨ x = F32.inf ∨
  F32.gtb x (F32.of_int 500) = true ∨ F32.ltb x (F32.of_int 0) = true →
  cleanup x = F32.zero.
Proof.
  intros [Hnan|[->|[Hgt|Hlt]]].
  - destruct x; try discriminate. reflexivity.
  - reflexivity.
  - destruct x as [s|[]| |s m e]; try discriminate; try reflexivity.
    unfold cleanup. cbv zeta.
    change (F32.nan_to_num (S754_finite s m e)) with (S754_finite s m e).
    rewrite finite_not_inf by reflexivity. rewrite Hgt. reflexivity.
  - destruct (ltb_zero_cases _ Hlt) as [->|(m & e & ->)]; [reflexivity|].
    unfold cleanup. cbv zeta.
    change (F32.nan_to_num (S754_finite true m e)) with (S754_finite true m e).
    rewrite finite_not_inf by reflexivity.
    rewrite (ltb_not_gtb _ (F32.of_int 500)) by reflexivity.
    rewrite Hlt. reflexivity.
Qed.

(** [np.nan_to_num] also moves the infinities to the largest finite values;
    the later statements zero those, so the code and the four steps of the
    specification agree on every voxel. *)
Lemma cleanup_spec_cleanup (x : F) : cleanup x = spec_cleanup x.
Proof. destruct x as [s|[]| |s m e]; reflexivity. Qed.

End Voxels.

(** ** The monad and the heap *)

Section Monad.
Context {A B : Type}.

Lemma bind_ok (m : M A) (f : A → M B) σ σ' a :
  m σ = (σ', Ok a) → (m ≫= f) σ = f a σ'.
Proof. intros H. unfold mbind, M_bind. by rewrite H. Qed.

Lemma bind_raise (m : M A) (f : A → M B) σ σ' e :
  m σ = (σ', Raise e) → (m ≫= f) σ = (σ', Raise e).
Proof. intros H. unfold mbind, M_bind. by rewrite H. Qed.

End Monad.

Ltac step H := rewrite (bind_ok _ _ _ _ _ H).

Lemma same_io_refl σ : same_io σ σ.
Proof. by repeat split. Qed.

Lemma same_io_trans σ1 σ2 σ3 : same_io σ1 σ2 → same_io σ2 σ3 → same_io σ1 σ3.
Proof. intros (?&?&?&?) (?&?&?&?). repeat split; congruence. Qed.

Lemma grows_refl σ : grows σ σ.
Proof. split; [done|apply same_io_refl]. Qed.

Lemma grows_trans σ1 σ2 σ3 : grows σ1 σ2 → grows σ2 σ3 → grows σ1 σ3.
Proof.
  intros [H1 I1] [H2 I2]. split; [by etrans|by eapply same_io_trans].
Qed.

Lemma grows_lookup σ σ' l a : grows σ σ' → heap σ !! l = Some a → heap σ' !! l = Some a.
Proof. intros [H _] Hl. by eapply lookup_weaken. Qed.

Lemma grows_fresh σ σ' l : grows σ σ' → heap σ' !! l = None → heap σ !! l = None.
Proof.
  intros [H _] Hl. destruct (heap σ !! l) eqn:E; [|done].
  by rewrite (lookup_weaken _ _ _ _ E H) in Hl.
Qed.

Lemma fresh_loc_None σ : heap σ !! fresh_loc σ = None.
Proof. apply not_elem_of_dom. exact (is_fresh (dom (heap σ))). Qed.

Lemma alloc_spec a σ :
  ∃ l σ', alloc a σ = (σ', Ok l) ∧ heap σ !! l = None ∧
          heap σ' !! l = Some a ∧ grows σ σ'.
Proof.
  exists (fresh_loc σ), (set_heap (<[fresh_loc σ := a]>) σ).
  pose proof (fresh_loc_None σ) as Hf.
  split; [done|]. split; [done|]. split; [apply lookup_insert_eq|].
  split; [by apply insert_subseteq|by repeat split].
Qed.

Lemma read_f32_run l σ xs : heap σ !! l = Some (F32Array xs) → read_f32 l σ = (σ, Ok xs).
Proof. intros H. unfold read_f32. by rewrite H. Qed.

Lemma read_bool_run l σ bs : heap σ !! l = Some (BoolArray bs) → read_bool l σ = (σ, Ok bs).
Proof. intros H. unfold read_bool. by rewrite H. Qed.

(** ** numpy operators: a new object each time *)

Lemma map_f32_spec f a σ xs :
  heap σ !! a = Some (F32Array xs) →
  ∃ l σ', Np.map_f32 f a σ = (σ', Ok l) ∧ heap σ !! l = None ∧
          heap σ' !! l = Some (F32Array (f <$> xs)) ∧ grows σ σ'.
Proof.
  intros Ha. unfold Np.map_f32. step (read_f32_run _ _ _ Ha). apply alloc_spec.
Qed.

Lemma zip_f32_spec f a b σ xs ys :
  heap σ !! a = Some (F32Array xs) → heap σ !! b = Some (F32Array ys) →
  length xs = length ys →
  ∃ l σ', Np.zip_f32 f a b σ = (σ', Ok l) ∧ heap σ !! l = None ∧
          heap σ' !! l = Some (F32Array (zip_with f xs ys)) ∧ grows σ σ'.
Proof.
  intros Ha Hb Hlen. unfold Np.zip_f32.
  step (read_f32_run _ _ _ Ha). step (read_f32_run _ _ _ Hb).
  rewrite decide_True by done. apply alloc_spec.
Qed.

Lemma masked_fmap v (p : F → bool) xs :
  Np.masked v xs (p <$> xs) = (λ x, if p x then v else x) <$> xs.
Proof.
  unfold Np.masked. induction xs as [|x xs IH]; [done|]. csimpl. by rewrite IH.
Qed.

(** [a[a ? k] = v] followed by the rest [k] of the function: the mask is a
    new object, [a] is updated in place, nothing older than [a] changes. *)
Lemma mask_assign_step {B} p v n (k : M B) σ xs :
  heap σ !! n = Some (F32Array xs) →
  ∃ σ', (m ← Np.compare_scalar p n; Np.setitem_mask n m v;; k) σ = k σ' ∧
        heap σ' !! n = Some (F32Array ((λ x, if p x then v else x) <$> xs)) ∧
        same_io σ σ' ∧
        (∀ σ0, heap σ0 !! n = None → grows σ0 σ → grows σ0 σ').
Proof.
  intros Hn.
  destruct (alloc_spec (BoolArray (p <$> xs)) σ) as (m & σ1 & E1 & F1 & L1 & G1).
  exists (set_heap (<[n := F32Array ((λ x, if p x then v else x) <$> xs)]>) σ1).
  split.
  - unfold Np.compare_scalar.
    erewrite (bind_ok (_ ≫= _)); last first.
    { step (read_f32_run _ _ _ Hn). exact E1. }
    unfold Np.setitem_mask.
    erewrite (bind_ok (_ ≫= _)); [reflexivity|].
    step (read_f32_run _ _ _ (grows_lookup _ _ _ _ G1 Hn)).
    step (read_bool_run _ _ _ L1).
    rewrite decide_True by (by rewrite length_fmap).
    by rewrite masked_fmap.
  - split; [apply lookup_insert_eq|]. split; [apply G1|].
    intros σ0 H0 G0. destruct (grows_trans _ _ _ G0 G1) as [Hh Hio].
    split; [|exact Hio]. simpl. by apply insert_subseteq_r.
Qed.

Lemma raw_array_lookup m reg (xs ys zs : list F) (i : nat) x y z :
  xs !! i = Some x → ys !! i = Some y → zs !! i = Some z →
  raw_array m reg xs ys zs !! i = Some (raw_ratio m reg x y z).
Proof.
  intros Hx Hy Hz. unfold raw_array, raw_ratio.
  destruct m; rewrite lookup_zip_with, !list_lookup_fmap, ?lookup_zip_with, Hx, ?Hy, ?Hz;
    reflexivity.
Qed.

Lemma raw_array_length m reg (xs ys zs : list F) :
  length xs = length ys → length ys = length zs →
  length (raw_array m reg xs ys zs) = length xs.
Proof.
  intros. unfold raw_array.
  destruct m; rewrite length_zip_with, !length_fmap, ?length_zip_with; lia.
Qed.

Lemma inputs_at_weaken t1 pd mt xs ys zs σ σ' :
  heap σ ⊆ heap σ' → inputs_at t1 pd mt xs ys zs σ → inputs_at t1 pd mt xs ys zs σ'.
Proof.
  intros Hsub (H1 & H2 & H3 & L).
  repeat split; try (eapply lookup_weaken; eassumption); apply L.
Qed.

(** ** The compositor *)

Section Compositor.
Variables (t1 pd mt : loc) (xs ys zs : list F) (reg : Z).

(** The branch on [weight]: the quotient is a new array holding the raw
    ratios. *)
Lemma ratio_run (m : ContrastMode) σ :
  inputs_at t1 pd mt xs ys zs σ →
  ∃ q σ',
    (if String.eqb (weight_of m) "all" then
       num ← Np.sub_scalar t1 (F32.of_int reg);
       s ← Np.add pd mt;
       hs ← Np.scalar_mul F32.half s;
       den ← Np.add_scalar hs (F32.of_int reg);
       q ← Np.divide num den;
       mret (Some q)
     else if String.eqb (weight_of m) "MT" then
       num ← Np.sub_scalar t1 (F32.of_int reg);
       den ← Np.add_scalar mt (F32.of_int reg);
       q ← Np.divide num den;
       mret (Some q)
     else if String.eqb (weight_of m) "PD" then
       num ← Np.sub_scalar t1 (F32.of_int reg);
       den ← Np.add_scalar pd (F32.of_int reg);
       q ← Np.divide num den;
       mret (Some q)
     else mret None) σ = (σ', Ok (Some q)) ∧
    heap σ !! q = None ∧
    heap σ' !! q = Some (F32Array (raw_array m reg xs ys zs)) ∧
    grows σ σ'.
Proof.
  intros (H1 & H2 & H3 & L12 & L23).
  destruct (map_f32_spec (λ x, F32.sub x (F32.of_int reg)) t1 σ xs H1)
    as (num & σ1 & E1 & F1 & N1 & G1).
  destruct m.
  - change (String.eqb (weight_of ALL) "all") with true. cbv iota.
    destruct (zip_f32_spec F32.add pd mt σ1 ys zs) as (s & σ2 & E2 & F2 & N2 & G2);
      [by eapply grows_lookup..|done|].
    destruct (map_f32_spec (λ x, F32.mul F32.half x) s σ2 _ N2)
      as (hs & σ3 & E3 & F3 & N3 & G3).
    destruct (map_f32_spec (λ x, F32.add x (F32.of_int reg)) hs σ3 _ N3)
      as (den & σ4 & E4 & F4 & N4 & G4).
    destruct (zip_f32_spec F32.div num den σ4 _ _
                (grows_lookup _ _ _ _ (grows_trans _ _ _ G2 (grows_trans _ _ _ G3 G4)) N1)
                N4) as (q & σ5 & E5 & F5 & N5 & G5).
    { rewrite !length_fmap, length_zip_with. lia. }
    exists q, σ5. split.
    { unfold Np.sub_scalar, Np.add, Np.scalar_mul, Np.add_scalar, Np.divide.
      step E1. step E2. step E3. step E4. step E5. reflexivity. }
    pose proof (grows_trans _ _ _ G1 (grows_trans _ _ _ G2 (grows_trans _ _ _ G3 G4))) as G.
    split; [by eapply grows_fresh|]. split; [exact N5|]. by eapply grows_trans.
  - change (String.eqb (weight_of PD) "all") with false.
    change (String.eqb (weight_of PD) "MT") with false.
    change (String.eqb (weight_of PD) "PD") with true. cbv iota.
    destruct (map_f32_spec (λ x, F32.add x (F32.of_int reg)) pd σ1 ys)
      as (den & σ2 & E2 & F2 & N2 & G2); [by eapply grows_lookup|].
    destruct (zip_f32_spec F32.div num den σ2 _ _ (grows_lookup _ _ _ _ G2 N1) N2)
      as (q & σ3 & E3 & F3 & N3 & G3).
    { rewrite !length_fmap. lia. }
    exists q, σ3. split.
    { unfold Np.sub_scalar, Np.add_scalar, Np.divide.
      step E1. step E2. step E3. reflexivity. }
    pose proof (grows_trans _ _ _ G1 G2) as G.
    split; [by eapply grows_fresh|]. split; [exact N3|]. by eapply grows_trans.
  - change (String.eqb (weight_of MT) "all") with false.
    change (String.eqb (weight_of MT) "MT") with true. cbv iota.
    destruct (map_f32_spec (λ x, F32.add x (F32.of_int reg)) mt σ1 zs)
      as (den & σ2 & E2 & F2 & N2 & G2); [by eapply grows_lookup|].
    destruct (zip_f32_spec F32.div num den σ2 _ _ (grows_lookup _ _ _ _ G2 N1) N2)
      as (q & σ3 & E3 & F3 & N3 & G3).
    { rewrite !length_fmap. lia. }
    exists q, σ3. split.
    { unfold Np.sub_scalar, Np.add_scalar, Np.divide.
      step E1. step E2. step E3. reflexivity. }
    pose proof (grows_trans _ _ _ G1 G2) as G.
    split; [by eapply grows_fresh|]. split; [exact N3|]. by eapply grows_trans.
Qed.

(** A call of [mprage_like_img] on three arrays of one shape returns; the
    result is a new object, it holds the cleaned raw ratios, and every older
    object is as it was. *)
Lemma mprage_like_img_run (m : ContrastMode) σ :
  inputs_at t1 pd mt xs ys zs σ →
  ∃ l σ',
    mprage_like_img t1 pd mt reg (weight_of m) σ = (σ', Ok l) ∧
    heap σ !! l = None ∧
    heap σ' !! l = Some (F32Array (cleanup <$> raw_array m reg xs ys zs)) ∧
    heap σ ⊆ heap σ' ∧
    made_dirs σ' = made_dirs σ ∧ written σ' = written σ ∧ stdout σ' = stdout σ ∧
    calls σ' = calls σ ++ [(reg, weight_of m)].
Proof.
  intros Hin. unfold mprage_like_img.
  set (σa := World (heap σ) (made_dirs σ) (written σ) (stdout σ)
                   (calls σ ++ [(reg, weight_of m)])).
  rewrite (bind_ok (log_call reg (weight_of m)) _ σ σa tt eq_refl).
  destruct (ratio_run m σa Hin) as (q & σ1 & E1 & F1 & N1 & G1).
  step E1.
  rewrite (bind_ok (read_local "mprage_like" (Some q)) _ σ1 σ1 q eq_refl).
  destruct (map_f32_spec F32.nan_to_num q σ1 _ N1) as (n & σ2 & E2 & F2 & N2 & G2).
  unfold Np.nan_to_num. step E2. cbv zeta.
  pose proof (grows_trans _ _ _ G1 G2) as G.
  pose proof (grows_fresh _ _ _ G1 F2) as Fa.
  destruct (mask_assign_step (λ x, F32.eqb x F32.inf) (F32.of_int 0) n
              (m0 ← Np.compare_scalar (λ x, F32.gtb x (F32.of_int 500)) n;
               Np.setitem_mask n m0 (F32.of_int 0);;
               m1 ← Np.compare_scalar (λ x, F32.ltb x (F32.of_int 0)) n;
               Np.setitem_mask n m1 (F32.of_int 0);; mret n) σ2 _ N2)
    as (σ3 & -> & N3 & I3 & G3).
  destruct (mask_assign_step (λ x, F32.gtb x (F32.of_int 500)) (F32.of_int 0) n
              (m1 ← Np.compare_scalar (λ x, F32.ltb x (F32.of_int 0)) n;
               Np.setitem_mask n m1 (F32.of_int 0);; mret n) σ3 _ N3)
    as (σ4 & -> & N4 & I4 & G4).
  destruct (mask_assign_step (λ x, F32.ltb x (F32.of_int 0)) (F32.of_int 0) n
              (mret n) σ4 _ N4)
    as (σ5 & -> & N5 & I5 & G5).
  exists n, σ5. split; [reflexivity|].
  split; [exact Fa|]. split.
  { rewrite N5. do 2 f_equal. rewrite <- !list_fmap_compose.
    apply list_fmap_ext. intros i x _. reflexivity. }
  destruct (G5 σa Fa (G4 σa Fa (G3 σa Fa G))) as [Hh (Hd & Hw & Hs & Hc)].
  repeat split; assumption.
Qed.

End Compositor.

(** The end-to-end scenario of the specification: T1 = 150, PD = MT = 100,
    mode ALL, reg = 100 gives 0.25 = 2^23 * 2^-25; the second voxel
    (T1 = 7, PD = MT = 0) has a negative ratio and is zeroed. *)
Example end_to_end_quarter :
  ∃ σ' l,
    mprage_like_img 0%nat 1%nat 2%nat 100 "all" demo_heap_world = (σ', Ok l) ∧
    heap σ' !! l = Some (F32Array [S754_finite false 8388608 (-25); F32.zero]).
Proof. eexists _, _. split; vm_compute; reflexivity. Qed.

(** C1. For every ContrastMode and every integer [reg] (non-negative or
    not), a call of the compositor on three arrays of one shape returns an
    array of that shape in which every voxel whose raw ratio is finite and
    lies in [0, 500] holds the raw ratio of its mode unchanged.  A finite
    ratio already excludes a zero denominator, which IEEE division sends to
    an infinity or to NaN. *)
Theorem compositor_keeps_in_range_voxels
    (m : ContrastMode) (reg : Z) (t1 pd mt : loc) (xs ys zs : list F) (σ : world) :
  inputs_at t1 pd mt xs ys zs σ →
  ∃ out σ' l,
    mprage_like_img t1 pd mt reg (weight_of m) σ = (σ', Ok l) ∧
    heap σ' !! l = Some (F32Array out) ∧
    length out = length xs ∧
    ∀ (i : nat) x y z,
      xs !! i = Some x → ys !! i = Some y → zs !! i = Some z →
      F32.is_finite (raw_ratio m reg x y z) = true →
      F32.leb (F32.of_int 0) (raw_ratio m reg x y z) = true →
      F32.leb (raw_ratio m reg x y z) (F32.of_int 500) = true →
      out !! i = Some (raw_ratio m reg x y z).
Proof.
  intros Hin.
  destruct (mprage_like_img_run t1 pd mt xs ys zs reg m σ Hin)
    as (l & σ' & Hrun & _ & Hout & _).
  destruct Hin as (_ & _ & _ & L12 & L23).
  exists (cleanup <$> raw_array m reg xs ys zs), σ', l.
  split; [exact Hrun|]. split; [exact Hout|]. split.
  { rewrite length_fmap. by apply raw_array_length. }
  intros i x y z Hx Hy Hz Hfin H0 H500.
  rewrite list_lookup_fmap, (raw_array_lookup _ _ _ _ _ _ _ _ _ Hx Hy Hz). simpl.
  f_equal. by apply cleanup_in_range.
Qed.

Lemma demo_heap_inputs :
  inputs_at 0%nat 1%nat 2%nat [F32.of_int 150; F32.of_int 7]
    [F32.of_int 100; F32.of_int 0] [F32.of_int 100; F32.of_int 0] demo_heap_world.
Proof. vm_compute. repeat split. Defined.

Lemma compositor_keeps_in_range_voxels_witness :
  inputs_at 0%nat 1%nat 2%nat [F32.of_int 150; F32.of_int 7]
    [F32.of_int 100; F32.of_int 0] [F32.of_int 100; F32.of_int 0] demo_heap_world ∧
  ∃ out σ' l,
    mprage_like_img 0%nat 1%nat 2%nat 100 (weight_of ALL) demo_heap_world = (σ', Ok l) ∧
    heap σ' !! l = Some (F32Array out) ∧
    length out = 2%nat ∧
    ∀ (i : nat) x y z,
      [F32.of_int 150; F32.of_int 7] !! i = Some x →
      [F32.of_int 100; F32.of_int 0] !! i = Some y →
      [F32.of_int 100; F32.of_int 0] !! i = Some z →
      F32.is_finite (raw_ratio ALL 100 x y z) = true →
      F32.leb (F32.of_int 0) (raw_ratio ALL 100 x y z) = true →
      F32.leb (raw_ratio ALL 100 x y z) (F32.of_int 500) = true →
      out !! i = Some (raw_ratio ALL 100 x y z).
Proof.
  split; [exact demo_heap_inputs|].
  exact (compositor_keeps_in_range_voxels ALL 100 0%nat 1%nat 2%nat _ _ _ _
           demo_heap_inputs).
Defined.

(** C2. For every input of one shape, the compositor returns the array
    obtained from the raw ratios by the four steps in their stated order
    (NaN to 0, +infinity to 0, above 500 to 0, below 0 to 0), and every
    voxel whose raw ratio is NaN, +infinity, strictly above 500 or strictly
    below 0 is exactly +0 in the output. *)
Theorem compositor_zeroes_out_of_range_voxels
    (m : ContrastMode) (reg : Z) (t1 pd mt : loc) (xs ys zs : list F) (σ : world) :
  inputs_at t1 pd mt xs ys zs σ →
  ∃ out σ' l,
    mprage_like_img t1 pd mt reg (weight_of m) σ = (σ', Ok l) ∧
    heap σ' !! l = Some (F32Array out) ∧
    out = spec_cleanup <$> raw_array m reg xs ys zs ∧
    ∀ (i : nat) x y z,
      xs !! i = Some x → ys !! i = Some y → zs !! i = Some z →
      F32.is_nan (raw_ratio m reg x y z) = true ∨
      raw_ratio m reg x y z = F32.inf ∨
      F32.gtb (raw_ratio m reg x y z) (F32.of_int 500) = true ∨
      F32.ltb (raw_ratio m reg x y z) (F32.of_int 0) = true →
      out !! i = Some F32.zero.
Proof.
  intros Hin.
  destruct (mprage_like_img_run t1 pd mt xs ys zs reg m σ Hin)
    as (l & σ' & Hrun & _ & Hout & _).
  exists (cleanup <$> raw_array m reg xs ys zs), σ', l.
  split; [exact Hrun|]. split; [exact Hout|]. split.
  { apply list_fmap_ext. intros _ x _. apply cleanup_spec_cleanup. }
  intros i x y z Hx Hy Hz Hbad.
  rewrite list_lookup_fmap, (raw_array_lookup _ _ _ _ _ _ _ _ _ Hx Hy Hz). simpl.
  f_equal. by apply cleanup_out_of_range.
Qed.

Lemma compositor_zeroes_out_of_range_voxels_witness :
  inputs_at 0%nat 1%nat 2%nat [F32.of_int 150; F32.of_int 7]
    [F32.of_int 100; F32.of_int 0] [F32.of_int 100; F32.of_int 0] demo_heap_world ∧
  ∃ out σ' l,
    mprage_like_img 0%nat 1%nat 2%nat 0 (weight_of PD) demo_heap_world = (σ', Ok l) ∧
    heap σ' !! l = Some (F32Array out) ∧
    out = spec_cleanup <$> raw_array PD 0 [F32.of_int 150; F32.of_int 7]
            [F32.of_int 100; F32.of_int 0] [F32.of_int 100; F32.of_int 0] ∧
    ∀ (i : nat) x y z,
      [F32.of_int 150; F32.of_int 7] !! i = Some x →
      [F32.of_int 100; F32.of_int 0] !! i = Some y →
      [F32.of_int 100; F32.of_int 0] !! i = Some z →
      F32.is_nan (raw_ratio PD 0 x y z) = true ∨
      raw_ratio PD 0 x y z = F32.inf ∨
      F32.gtb (raw_ratio PD 0 x y z) (F32.of_int 500) = true ∨
      F32.ltb (raw_ratio PD 0 x y z) (F32.of_int 0) = true →
      out !! i = Some F32.zero.
Proof.
  split; [exact demo_heap_inputs|].
  exact (compositor_zeroes_out_of_range_voxels PD 0 0%nat 1%nat 2%nat _ _ _ _
           demo_heap_inputs).
Defined.

(** With [reg = 0] and mode PD the second demo voxel is 7 / 0 = +infinity:
    [np.nan_to_num] turns it into the largest float32, the [> 500] statement
    zeroes it. *)
Example division_by_zero_voxel :
  raw_ratio PD 0 (F32.of_int 7) (F32.of_int 0) (F32.of_int 0) = F32.inf ∧
  F32.nan_to_num F32.inf = F32.max_float ∧
  cleanup F32.inf = F32.zero.
Proof. repeat split. Qed.

(** C9. A compositor call leaves every object that existed before it, the
    three inputs among them, unchanged, and returns an array that did not
    exist before; a later call, whatever was allocated in between (objects
    are never freed in this model), returns yet another array and leaves
    the output of the earlier call untouched. *)
Theorem compositor_output_is_fresh
    (m : ContrastMode) (reg reg' : Z) (t1 pd mt : loc) (xs ys zs : list F) (σ : world) :
  inputs_at t1 pd mt xs ys zs σ →
  ∃ σ1 l1,
    mprage_like_img t1 pd mt reg (weight_of m) σ = (σ1, Ok l1) ∧
    (∀ l a, heap σ !! l = Some a → heap σ1 !! l = Some a) ∧
    heap σ !! l1 = None ∧
    l1 ≠ t1 ∧ l1 ≠ pd ∧ l1 ≠ mt ∧
    ∀ σ1', heap σ1 ⊆ heap σ1' →
      ∃ σ2 l2,
        mprage_like_img t1 pd mt reg' (weight_of m) σ1' = (σ2, Ok l2) ∧
        (∀ l a, heap σ1' !! l = Some a → heap σ2 !! l = Some a) ∧
        l2 ≠ l1 ∧ l2 ≠ t1 ∧ l2 ≠ pd ∧ l2 ≠ mt ∧
        heap σ2 !! l1 = heap σ1 !! l1.
Proof.
  intros Hin.
  destruct (mprage_like_img_run t1 pd mt xs ys zs reg m σ Hin)
    as (l1 & σ1 & Hrun & Hf1 & Hout & Hsub & _).
  pose proof Hin as (H1 & H2 & H3 & L).
  exists σ1, l1. split; [exact Hrun|].
  split; [intros l a Hl; by eapply lookup_weaken|].
  split; [exact Hf1|].
  repeat split; try (intros ->; congruence).
  intros σ1' Hsub'.
  assert (Hin' : inputs_at t1 pd mt xs ys zs σ1').
  { eapply inputs_at_weaken; [|exact Hin]. by etrans. }
  destruct (mprage_like_img_run t1 pd mt xs ys zs reg' m σ1' Hin')
    as (l2 & σ2 & Hrun2 & Hf2 & Hout2 & Hsub2 & _).
  pose proof (lookup_weaken _ _ _ _ Hout Hsub') as Hl1.
  destruct Hin' as (H1' & H2' & H3' & _).
  exists σ2, l2. split; [exact Hrun2|].
  split; [intros l a Hl; by eapply lookup_weaken|].
  repeat split; try (intros ->; congruence).
  rewrite Hout. by eapply lookup_weaken.
Qed.

Lemma compositor_output_is_fresh_witness :
  inputs_at 0%nat 1%nat 2%nat [F32.of_int 150; F32.of_int 7]
    [F32.of_int 100; F32.of_int 0] [F32.of_int 100; F32.of_int 0] demo_heap_world ∧
  ∃ σ1 l1,
    mprage_like_img 0%nat 1%nat 2%nat 0 (weight_of ALL) demo_heap_world = (σ1, Ok l1) ∧
    (∀ l a, heap demo_heap_world !! l = Some a → heap σ1 !! l = Some a) ∧
    heap demo_heap_world !! l1 = None ∧
    l1 ≠ 0%nat ∧ l1 ≠ 1%nat ∧ l1 ≠ 2%nat ∧
    ∀ σ1', heap σ1 ⊆ heap σ1' →
      ∃ σ2 l2,
        mprage_like_img 0%nat 1%nat 2%nat 100 (weight_of ALL) σ1' = (σ2, Ok l2) ∧
        (∀ l a, heap σ1' !! l = Some a → heap σ2 !! l = Some a) ∧
        l2 ≠ l1 ∧ l2 ≠ 0%nat ∧ l2 ≠ 1%nat ∧ l2 ≠ 2%nat ∧
        heap σ2 !! l1 = heap σ1 !! l1.
Proof.
  split; [exact demo_heap_inputs|].
  exact (compositor_output_is_fresh ALL 0 100 0%nat 1%nat 2%nat _ _ _ _ demo_heap_inputs).
Defined.

(** ** Saving and sweeping *)

Lemma save_mprage_like_run E l aff path2save subID reg echo (m : ContrastMode) σ xs :
  heap σ !! l = Some (F32Array xs) →
  ∃ σ', save_mprage_like E l aff path2save subID reg echo (weight_of m) σ = (σ', Ok tt) ∧
        heap σ ⊆ heap σ' ∧ calls σ' = calls σ ∧
        written σ' = written σ ++ [(artifact_path path2save subID reg echo (weight_of m), xs, aff)].
Proof.
  intros Hl. unfold save_mprage_like. cbv zeta.
  rewrite (bind_ok (os_path_exists E _) _ σ σ _ eq_refl).
  set (b := path_exists E _ || _).
  assert (∃ σa, (if negb b then os_makedirs (Py.path_join path2save "mprage-like")
                 else mret ()) σ = (σa, Ok ()) ∧ heap σa = heap σ ∧
                written σa = written σ ∧ calls σa = calls σ) as (σa & Ea & Hh & Hw & Hc).
  { destruct b; eexists; (split; [reflexivity|]); done. }
  step Ea.
  destruct (map_f32_spec id l σa xs) as (l2 & σ2 & E2 & F2 & N2 & [G2 (_ & W2 & _ & C2)]);
    [by rewrite Hh|].
  unfold Np.astype_f32. step E2.
  assert ((if String.eqb (weight_of m) "all"
           then Some (img_name subID "mprage-like" (Py.str echo) (weight_of m) (Py.str reg))
           else if String.eqb (weight_of m) "PD"
           then Some (img_name subID "mprage-like" (Py.str echo) (weight_of m) (Py.str reg))
           else if String.eqb (weight_of m) "MT"
           then Some (img_name subID "mprage-like" (Py.str echo) (weight_of m) (Py.str reg))
           else None)
          = Some (img_name subID "mprage-like" (Py.str echo) (weight_of m) (Py.str reg))) as ->
    by (by destruct m).
  rewrite (bind_ok (read_local _ (Some _)) _ σ2 σ2 _ eq_refl).
  unfold nib_save. cbn [fst snd].
  erewrite (bind_ok (_ ≫= _)); last first.
  { step (read_f32_run _ _ _ N2). reflexivity. }
  eexists. split; [reflexivity|]. simpl.
  rewrite list_fmap_id, W2, Hw, C2, Hc. rewrite <- Hh. done.
Qed.

Lemma parses_Some r n : Py.int r = Some n → parses r = true ∧ reg_value r = n.
Proof.
  intros H. unfold parses, reg_value. rewrite H.
  split; [by apply bool_decide_eq_true|done].
Qed.

Lemma parses_None r : Py.int r = None → parses r = false.
Proof.
  intros H. unfold parses. rewrite H. apply bool_decide_eq_false. by intros [? ?].
Qed.

(** The sweep composes and saves one image per element, in order, until an
    element is not an integer literal; it stops there with [ValueError]. *)
Lemma sweep_run E v path2save subID echo (m : ContrastMode) xs ys zs rs σ :
  inputs_at (t1w_data v) (pdw_data v) (mtw_data v) xs ys zs σ →
  ∃ σ',
    for_each (sweep_body E v path2save subID echo (weight_of m)) rs () σ
      = (σ', if forallb parses rs then Ok () else Raise ValueError) ∧
    heap σ ⊆ heap σ' ∧
    calls σ' = calls σ ++ ((λ r, (reg_value r, weight_of m)) <$> good_prefix rs) ∧
    written σ' = written σ ++ (artifact m v xs ys zs path2save subID echo <$> good_prefix rs).
Proof.
  revert σ. induction rs as [|r rs IH]; intros σ Hin.
  { exists σ. simpl. by rewrite !app_nil_r. }
  cbn [for_each forallb good_prefix].
  destruct (Py.int r) as [n|] eqn:Hr.
  - destruct (parses_Some _ _ Hr) as [Hp Hv]. rewrite Hp. cbn [andb].
    assert (Hpy : py_int r σ = (σ, Ok n)) by (unfold py_int; by rewrite Hr).
    destruct (mprage_like_img_run _ _ _ _ _ _ n m σ Hin)
      as (l & σ1 & E1 & F1 & N1 & S1 & _ & W1 & _ & C1).
    destruct (save_mprage_like_run E l (t1w_affine v) path2save subID (Py.Str r) echo m σ1 _ N1)
      as (σ2 & E2 & S2 & C2 & W2).
    destruct (IH σ2) as (σ' & E' & S' & C' & W').
    { eapply inputs_at_weaken; [|exact Hin]. by etrans. }
    exists σ'. split.
    { rewrite (bind_ok _ _ σ σ2 ()); [exact E'|]. unfold sweep_body.
      step Hpy. step E1. exact E2. }
    split; [by do 2 (etrans; [eassumption|])|].
    rewrite C', C2, C1, W', W2, W1, !fmap_cons, <- !app_assoc. unfold artifact at 2.
    by rewrite Hv.
  - rewrite (parses_None _ Hr). cbn [andb]. exists σ.
    split.
    { apply bind_raise. unfold sweep_body. apply bind_raise. unfold py_int. by rewrite Hr. }
    simpl. by rewrite !app_nil_r.
Qed.

(** ** Loading the contrasts *)

Lemma load_volume_spec E p σ f :
  nib_load E p = Some f →
  ∃ d σ', load_volume E p σ = (σ', Ok (Binding d (nii_affine f) (nii_header f))) ∧
          heap σ !! d = None ∧ heap σ' !! d = Some (F32Array (nii_data f)) ∧ grows σ σ'.
Proof.
  intros Hf. unfold load_volume. rewrite Hf.
  destruct (alloc_spec (F32Array (nii_data f)) σ) as (d & σ' & E1 & F1 & N1 & G1).
  exists d, σ'. by step E1.
Qed.

Lemma load_volume_grows E p σ σ' r : load_volume E p σ = (σ', r) → grows σ σ'.
Proof.
  unfold load_volume. destruct (nib_load E p) as [f|].
  - destruct (alloc_spec (F32Array (nii_data f)) σ) as (d & σ1 & E1 & _ & _ & G1).
    step E1. intros [= <- _]. exact G1.
  - intros [= <- _]. apply grows_refl.
Qed.

(** The [if]/[elif] chain of the loop body, read as a choice of slot. *)
Lemma bind_contrast_branch E vars p :
  bind_contrast E vars p =
  match branch_of p with
  | Some k => b ← load_volume E p; mret (set_slot k b vars)
  | None => mret vars
  end.
Proof.
  unfold bind_contrast, branch_of.
  destruct (Py.contains "t1" p || Py.contains "T1" p); [reflexivity|].
  destruct (Py.contains "pd" p || Py.contains "PD" p); [reflexivity|].
  destruct (Py.contains "mt" p || Py.contains "MT" p); reflexivity.
Qed.

Lemma slot_set_slot k k' b vars :
  slot k (set_slot k' b vars) = if decide (k = k') then Some b else slot k vars.
Proof. by destruct k, k'. Qed.

Lemma loop_grows E paths vars σ σ' r :
  for_each (bind_contrast E) paths vars σ = (σ', r) → grows σ σ'.
Proof.
  revert vars σ. induction paths as [|p paths IH]; intros vars σ.
  { intros [= <- _]. apply grows_refl. }
  cbn [for_each]. rewrite bind_contrast_branch.
  destruct (branch_of p) as [k|]; [|exact (IH vars σ)].
  unfold mbind at 1, M_bind at 1. unfold mbind at 1, M_bind at 1.
  destruct (load_volume E p σ) as [σ1 [b|e]] eqn:Hl.
  - intros H. eapply grows_trans; [by eapply load_volume_grows|exact (IH _ _ H)].
  - intros [= <- _]. by eapply load_volume_grows.
Qed.

(** A slot no candidate is routed to is never assigned. *)
Lemma loop_keeps_unmatched_slot E paths k vars σ σ' vars' :
  (∀ p, p ∈ paths → branch_of p ≠ Some k) →
  for_each (bind_contrast E) paths vars σ = (σ', Ok vars') →
  slot k vars' = slot k vars.
Proof.
  revert vars σ. induction paths as [|p paths IH]; intros vars σ Hk.
  { by intros [= _ <-]. }
  assert (Hk' : ∀ q, q ∈ paths → branch_of q ≠ Some k) by (intros q Hq; apply Hk; by right).
  cbn [for_each]. rewrite bind_contrast_branch.
  destruct (branch_of p) as [k0|] eqn:Hb; [|exact (IH vars σ Hk')].
  unfold mbind at 1, M_bind at 1. unfold mbind at 1, M_bind at 1.
  destruct (load_volume E p σ) as [σ1 [b|e]]; [|discriminate].
  intros H. rewrite (IH _ _ Hk' H), slot_set_slot, decide_False; [done|].
  intros ->. apply (Hk p); [by left|exact Hb].
Qed.

Lemma last_match_cons k p paths :
  last_match k (p :: paths) =
  match last_match k paths with
  | Some q => Some q
  | None => if bool_decide (branch_of p = Some k) then Some p else None
  end.
Proof.
  unfold last_match. cbn [List.filter].
  destruct (bool_decide (branch_of p = Some k)); [|by destruct (last _)].
  apply last_cons.
Qed.

Lemma last_match_None k paths :
  (∀ p, p ∈ paths → branch_of p ≠ Some k) → last_match k paths = None.
Proof.
  induction paths as [|p paths IH]; intros H; [done|].
  rewrite last_match_cons, IH.
  - rewrite bool_decide_eq_false_2; [done|]. apply H. by left.
  - intros q Hq. apply H. by right.
Qed.

Lemma bound_to_grows E σ σ' p b : grows σ σ' → bound_to E σ p b → bound_to E σ' p b.
Proof.
  intros G (f & ? & ? & ? & Hd). exists f. repeat split; try done.
  by eapply grows_lookup.
Qed.

(** Loop invariant of [get_img_arrays]: each slot holds the volume of the
    last candidate routed to it, or its initial value when there is none. *)
Lemma loop_slots E paths vars σ :
  loadable E paths →
  ∃ vars' σ',
    for_each (bind_contrast E) paths vars σ = (σ', Ok vars') ∧ grows σ σ' ∧
    ∀ k, slot_after E σ' paths vars vars' k.
Proof.
  revert vars σ. induction paths as [|p paths IH]; intros vars σ Hload.
  { exists vars, σ. split; [done|]. split; [apply grows_refl|]. by intros k. }
  assert (Hload' : loadable E paths).
  { intros q Hq. apply Hload. by right. }
  cbn [for_each]. rewrite bind_contrast_branch.
  destruct (branch_of p) as [k0|] eqn:Hb.
  - destruct (Hload p) as [f Hf]; [by left|by rewrite Hb|].
    destruct (load_volume_spec E p σ f Hf) as (d & σ1 & E1 & F1 & N1 & G1).
    destruct (IH (set_slot k0 (Binding d (nii_affine f) (nii_header f)) vars) σ1 Hload')
      as (vars' & σ' & E' & G' & Hs).
    exists vars', σ'. split.
    { rewrite (bind_ok _ _ σ σ1 (set_slot k0 (Binding d (nii_affine f) (nii_header f)) vars));
        [exact E'|]. by step E1. }
    split; [by eapply grows_trans|].
    intros k. specialize (Hs k). unfold slot_after in *. rewrite last_match_cons, Hb.
    destruct (last_match k paths) as [q|]; [exact Hs|].
    rewrite slot_set_slot in Hs.
    destruct (decide (k = k0)) as [->|Hne].
    + rewrite bool_decide_eq_true_2 by done. eexists. split; [exact Hs|].
      eapply bound_to_grows; [exact G'|]. by exists f.
    + rewrite bool_decide_eq_false_2 by congruence. exact Hs.
  - destruct (IH vars σ Hload') as (vars' & σ' & E' & G' & Hs).
    exists vars', σ'. split; [exact E'|]. split; [exact G'|].
    intros k. specialize (Hs k). unfold slot_after in *. rewrite last_match_cons, Hb.
    destruct (last_match k paths); [exact Hs|].
    by rewrite bool_decide_eq_false_2.
Qed.

Lemma get_img_arrays_after_loop E paths σ σ' vars :
  for_each (bind_contrast E) paths (Locals None None None) σ = (σ', Ok vars) →
  get_img_arrays E paths σ = (σ', volumes_of vars).
Proof.
  intros Hloop. unfold get_img_arrays. step Hloop.
  unfold volumes_of.
  destruct (t1w vars) as [a|]; [|reflexivity].
  destruct (pdw vars) as [b|]; [|reflexivity].
  destruct (mtw vars) as [c|]; reflexivity.
Qed.

Lemma get_img_arrays_grows E paths σ σ' r :
  get_img_arrays E paths σ = (σ', r) → grows σ σ'.
Proof.
  destruct (for_each (bind_contrast E) paths (Locals None None None) σ)
    as [σ1 [vars|e]] eqn:Hloop.
  - rewrite (get_img_arrays_after_loop _ _ _ _ _ Hloop).
    intros [= <- _]. by eapply loop_grows.
  - unfold get_img_arrays. rewrite (bind_raise _ _ _ _ _ Hloop).
    intros [= <- _]. by eapply loop_grows.
Qed.

(** [get_img_arrays] returns only when every slot was assigned. *)
Lemma get_img_arrays_needs_slot E paths σ σ' v k :
  (∀ p, p ∈ paths → branch_of p ≠ Some k) →
  get_img_arrays E paths σ ≠ (σ', Ok v).
Proof.
  intros Hk Hrun.
  destruct (for_each (bind_contrast E) paths (Locals None None None) σ)
    as [σ1 [vars|e]] eqn:Hloop.
  - rewrite (get_img_arrays_after_loop _ _ _ _ _ Hloop) in Hrun.
    pose proof (loop_keeps_unmatched_slot _ _ _ _ _ _ _ Hk Hloop) as Hs.
    unfold volumes_of in Hrun.
    destruct k; simpl in Hs; rewrite Hs in Hrun;
      destruct (t1w vars); try discriminate; destruct (pdw vars); discriminate.
  - unfold get_img_arrays in Hrun. by rewrite (bind_raise _ _ _ _ _ Hloop) in Hrun.
Qed.

(** C3. The first filter of [get_img_paths] tests ['.nii' and echo_num],
    which is just [echo_num]: on a directory holding [sub1_t1_e1.json]
    and [sub1_t1_e1.nii] with echo 1 the selector returns both paths,
    while the filter the comment above it describes ("List .nii images
    found in the directory with the corresponding echo number") keeps
    only the second. *)
Theorem first_filter_ignores_format_marker :
  let files := ["sub1_t1_e1.json"; "sub1_t1_e1.nii"] in
  get_img_paths (demo_env files demo_load) "/data" (Py.Str "1") empty_world
    = (empty_world, Ok ["/data/sub1_t1_e1.json"; "/data/sub1_t1_e1.nii"]) ∧
  spec_first_filter (Py.Str "1") files = ["sub1_t1_e1.nii"].
Proof. split; reflexivity. Qed.

(** C4, as amended. When every kind has a candidate and the candidates
    load, [get_img_arrays] returns, and each slot holds the volume of the
    last candidate in listing order that is routed to it: every match
    assigns the same variables again. *)
Theorem get_img_arrays_binds_last_match E paths σ p1 p2 p3 :
  loadable E paths →
  last_match T1w paths = Some p1 →
  last_match PDw paths = Some p2 →
  last_match MTw paths = Some p3 →
  ∃ σ' v,
    get_img_arrays E paths σ = (σ', Ok v) ∧
    bound_volume E σ' p1 (t1w_data v) (t1w_affine v) (t1w_header v) ∧
    bound_volume E σ' p2 (pdw_data v) (pdw_affine v) (pdw_header v) ∧
    bound_volume E σ' p3 (mtw_data v) (mtw_affine v) (mtw_header v).
Proof.
  intros Hload H1 H2 H3.
  destruct (loop_slots E paths (Locals None None None) σ Hload) as (vars & σ' & Hloop & _ & Hs).
  pose proof (Hs T1w) as S1. pose proof (Hs PDw) as S2. pose proof (Hs MTw) as S3.
  unfold slot_after in S1, S2, S3. rewrite H1 in S1. rewrite H2 in S2. rewrite H3 in S3.
  destruct S1 as ([d1 a1 h1] & Hv1 & B1), S2 as ([d2 a2 h2] & Hv2 & B2),
    S3 as ([d3 a3 h3] & Hv3 & B3).
  simpl in Hv1, Hv2, Hv3.
  eexists σ', _. split.
  { rewrite (get_img_arrays_after_loop _ _ _ _ _ Hloop). unfold volumes_of.
    rewrite Hv1, Hv2, Hv3. reflexivity. }
  simpl. by repeat split.
Qed.

Lemma get_img_arrays_binds_last_match_witness :
  ∃ σ' v,
    get_img_arrays (demo_env two_t1_files demo_load)
      ((λ f, Py.path_join "/data" f) <$> two_t1_files) empty_world = (σ', Ok v) ∧
    bound_volume (demo_env two_t1_files demo_load) σ' "/data/sub1_T1_run2_e1.nii"
      (t1w_data v) (t1w_affine v) (t1w_header v) ∧
    bound_volume (demo_env two_t1_files demo_load) σ' "/data/sub1_pd_e1.nii"
      (pdw_data v) (pdw_affine v) (pdw_header v) ∧
    bound_volume (demo_env two_t1_files demo_load) σ' "/data/sub1_mt_e1.nii"
      (mtw_data v) (mtw_affine v) (mtw_header v).
Proof.
  apply get_img_arrays_binds_last_match; [|reflexivity..].
  intros p Hp _. vm_compute in Hp.
  repeat (apply elem_of_cons in Hp as [->|Hp]; [by eexists|]).
  by apply elem_of_nil in Hp.
Defined.

(** C4, as stated, fails: with two T1w files the first match in listing
    order is [sub1_t1_e1.nii] (voxels 150, 300), but the T1 slot ends up
    holding the voxels of [sub1_T1_run2_e1.nii] (7, 14). *)
Lemma first_t1_match_is_overwritten :
  let E := demo_env two_t1_files demo_load in
  let paths := (λ f, Py.path_join "/data" f) <$> two_t1_files in
  get_img_paths E "/data" (Py.Str "1") empty_world = (empty_world, Ok paths) ∧
  first_match T1w paths = Some "/data/sub1_t1_e1.nii" ∧
  nib_load E "/data/sub1_t1_e1.nii" = Some (demo_volume 150) ∧
  (∃ σ' v, get_img_arrays E paths empty_world = (σ', Ok v) ∧
           heap σ' !! t1w_data v = Some (F32Array (nii_data (demo_volume 7)))) ∧
  nii_data (demo_volume 7) ≠ nii_data (demo_volume 150).
Proof.
  cbv zeta. split; [reflexivity|]. split; [reflexivity|]. split; [reflexivity|].
  split; [|discriminate].
  eexists _, _. split; vm_compute; reflexivity.
Qed.

Lemma bind_contrast_binds E k p vars σ f :
  nib_load E p = Some f → branch_of p = Some k → binds_only E k p vars σ.
Proof.
  intros Hf Hb. destruct (load_volume_spec E p σ f Hf) as (d & σ' & E1 & F1 & N1 & G1).
  exists σ', (set_slot k (Binding d (nii_affine f) (nii_header f)) vars),
    (Binding d (nii_affine f) (nii_header f)).
  split; [rewrite bind_contrast_branch, Hb; by step E1|].
  split; [by rewrite slot_set_slot, decide_True|].
  split; [by exists f|]. split; [exact F1|].
  intros k' Hne. by rewrite slot_set_slot, decide_False.
Qed.

(** C6, as amended. The loop body looks for its tokens in the whole
    candidate path, directory included, and compares letter case exactly:
    only the all-lowercase and the all-uppercase spelling of a token count.
    A path with "t1" or "T1" is loaded into the T1 slot whatever else it
    contains; otherwise one with "pd" or "PD" into the PD slot; otherwise
    one with "mt" or "MT" into the MT slot; a path with none of the six
    spellings is skipped without being opened. *)
Theorem contrast_binding_rule E vars p σ f :
  nib_load E p = Some f →
  (has_token "t1" "T1" p = true → binds_only E T1w p vars σ) ∧
  (has_token "t1" "T1" p = false → has_token "pd" "PD" p = true →
     binds_only E PDw p vars σ) ∧
  (has_token "t1" "T1" p = false → has_token "pd" "PD" p = false →
     has_token "mt" "MT" p = true → binds_only E MTw p vars σ) ∧
  (has_token "t1" "T1" p = false → has_token "pd" "PD" p = false →
     has_token "mt" "MT" p = false → bind_contrast E vars p σ = (σ, Ok vars)).
Proof.
  intros Hf. unfold has_token. repeat split.
  - intros H1. eapply bind_contrast_binds; [exact Hf|]. unfold branch_of. by rewrite H1.
  - intros H1 H2. eapply bind_contrast_binds; [exact Hf|]. unfold branch_of. by rewrite H1, H2.
  - intros H1 H2 H3. eapply bind_contrast_binds; [exact Hf|].
    unfold branch_of. by rewrite H1, H2, H3.
  - intros H1 H2 H3. rewrite bind_contrast_branch. unfold branch_of. by rewrite H1, H2, H3.
Qed.

Lemma contrast_binding_rule_witness :
  nib_load demo_E "/data/sub1_pd_e1.nii" = Some (demo_volume 100) ∧
  has_token "t1" "T1" "/data/sub1_pd_e1.nii" = false ∧
  has_token "pd" "PD" "/data/sub1_pd_e1.nii" = true ∧
  binds_only demo_E PDw "/data/sub1_pd_e1.nii" (Locals None None None) empty_world.
Proof.
  split; [reflexivity|]. split; [reflexivity|]. split; [reflexivity|].
  exact (proj1 (proj2 (contrast_binding_rule demo_E (Locals None None None)
           "/data/sub1_pd_e1.nii" empty_world (demo_volume 100) eq_refl)) eq_refl eq_refl).
Defined.

(** C6, as stated, fails twice: the file name [sub1_Pd_e1.nii] names PD
    for a case-insensitive match but takes no branch of the loop, and
    [sub1_pd_e1.nii] inside a directory [t1maps] is routed to T1 because the
    directory name is inspected too. *)
Lemma binding_is_case_sensitive_and_reads_directory :
  spec_kind_of "/data/sub1_Pd_e1.nii" = Some PDw ∧
  branch_of "/data/sub1_Pd_e1.nii" = None ∧
  spec_kind_of "/data/t1maps/sub1_pd_e1.nii" = Some PDw ∧
  branch_of "/data/t1maps/sub1_pd_e1.nii" = Some T1w.
Proof. repeat split. Qed.

(** ** The whole run *)

Lemma parse_reg_world reg σ σ' r : parse_reg reg σ = (σ', r) → σ' = σ.
Proof.
  unfold parse_reg. destruct reg as [s|n]; [|by intros [= <- _]].
  destruct (Py.contains "[" s); [by intros [= <- _]|].
  destruct (Py.int s); by intros [= <- _].
Qed.

Lemma get_img_paths_world E path2img echo σ σ' r :
  get_img_paths E path2img echo σ = (σ', r) → σ' = σ.
Proof.
  unfold get_img_paths, os_listdir. cbv zeta.
  destruct (listdir E path2img) as [files|]; [|by intros [= <- _]].
  unfold mbind, M_bind, mret, M_ret.
  destruct (List.filter _ files); by intros [= <- _].
Qed.

Lemma slot_after_unbound E σ' paths vars k :
  slot_after E σ' paths (Locals None None None) vars k →
  slot k vars = None → last_match k paths = None.
Proof.
  unfold slot_after. destruct (last_match k paths); [|done].
  intros (b & Hb & _) Hn. congruence.
Qed.

(** When a kind has no candidate and nothing fails earlier, the [return]
    of [get_img_arrays] raises on the first unassigned variable; nothing
    was composed or written. *)
Lemma main_fails_unbound E path2img echo reg subID contrast path2save σ rs paths k :
  parse_reg reg σ = (σ, Ok rs) →
  get_img_paths E path2img echo σ = (σ, Ok paths) →
  loadable E paths →
  (∀ p, p ∈ paths → branch_of p ≠ Some k) →
  ∃ σ' k',
    main E path2img echo reg subID contrast path2save σ
      = (σ', Raise (UnboundLocalError (data_var k'))) ∧
    last_match k' paths = None ∧
    written σ' = written σ ∧ calls σ' = calls σ.
Proof.
  intros Hreg Hpaths Hload Hk.
  destruct (loop_slots E paths (Locals None None None) σ Hload)
    as (vars & σ' & Hloop & [_ (_ & Hw & _ & Hc)] & Hs).
  pose proof (get_img_arrays_after_loop _ _ _ _ _ Hloop) as Harr.
  assert (∃ k', volumes_of vars = Raise (UnboundLocalError (data_var k')) ∧
                slot k' vars = None) as (k' & Hv & Hn).
  { unfold volumes_of.
    destruct (t1w vars) as [a|] eqn:H1; [|by exists T1w].
    destruct (pdw vars) as [b|] eqn:H2; [|by exists PDw].
    destruct (mtw vars) as [c|] eqn:H3; [|by exists MTw].
    pose proof (Hs k) as Hsk. unfold slot_after in Hsk.
    rewrite (last_match_None _ _ Hk) in Hsk.
    destruct k; simpl in Hsk; congruence. }
  exists σ', k'. split; [|split; [by eapply slot_after_unbound|done]].
  unfold main. step Hreg. step Hpaths.
  apply bind_raise. by rewrite Harr, Hv.
Qed.

(** Whatever else happens, a run in which some kind has no candidate ends
    with an exception before the first compositor call. *)
Lemma main_stops_before_compositing E path2img echo reg subID contrast path2save σ k :
  (∀ paths, get_img_paths E path2img echo σ = (σ, Ok paths) →
            ∀ p, p ∈ paths → branch_of p ≠ Some k) →
  ∃ σ' e,
    main E path2img echo reg subID contrast path2save σ = (σ', Raise e) ∧
    written σ' = written σ ∧ calls σ' = calls σ.
Proof.
  intros Hk. unfold main.
  destruct (parse_reg reg σ) as [σa [rs|e]] eqn:Hreg;
    pose proof (parse_reg_world _ _ _ _ Hreg) as ->.
  2: { exists σ, e. by rewrite (bind_raise _ _ _ _ _ Hreg). }
  step Hreg.
  destruct (get_img_paths E path2img echo σ) as [σb [paths|e]] eqn:Hpaths;
    pose proof (get_img_paths_world _ _ _ _ _ _ Hpaths) as ->.
  2: { exists σ, e. by rewrite (bind_raise _ _ _ _ _ Hpaths). }
  step Hpaths.
  destruct (get_img_arrays E paths σ) as [σ1 [v|e]] eqn:Harr.
  { by destruct (get_img_arrays_needs_slot E paths σ σ1 v k (Hk paths eq_refl)). }
  destruct (get_img_arrays_grows _ _ _ _ _ Harr) as [_ (_ & Hw & _ & Hc)].
  exists σ1, e. by rewrite (bind_raise _ _ _ _ _ Harr).
Qed.

Ltac in_listing H tac :=
  repeat (apply elem_of_cons in H as [->|H]; [tac|]); by apply elem_of_nil in H.

(** C7. If no candidate is routed to a contrast kind the selected mode
    requires, and the run gets as far as loading (the regularisation spec is
    accepted, the directory is listed, the candidates load), it ends with
    [UnboundLocalError] at the first use of an unassigned variable, the
    [return] of [get_img_arrays]; no compositor call was made and no file
    was written. *)
Theorem missing_required_contrast_fails
    E path2img echo reg subID (m : ContrastMode) path2save σ rs paths k :
  k ∈ required m →
  parse_reg reg σ = (σ, Ok rs) →
  get_img_paths E path2img echo σ = (σ, Ok paths) →
  loadable E paths →
  (∀ p, p ∈ paths → branch_of p ≠ Some k) →
  ∃ σ' k',
    main E path2img echo reg subID (weight_of m) path2save σ
      = (σ', Raise (UnboundLocalError (data_var k'))) ∧
    last_match k' paths = None ∧
    written σ' = written σ ∧ calls σ' = calls σ.
Proof. intros _. apply main_fails_unbound. Qed.

Lemma missing_required_contrast_fails_witness :
  PDw ∈ required PD ∧
  ∃ σ' k',
    main (demo_env no_pd_files demo_load) "/data" (Py.Str "1") (Py.Str "100") "sub1"
      (weight_of PD) "/out" empty_world
      = (σ', Raise (UnboundLocalError (data_var k'))) ∧
    last_match k' ["/data/sub1_t1_e1.nii"; "/data/sub1_mt_e1.nii"] = None ∧
    written σ' = written empty_world ∧ calls σ' = calls empty_world.
Proof.
  assert (Hreq : PDw ∈ required PD) by (right; left).
  split; [exact Hreq|].
  apply (missing_required_contrast_fails (demo_env no_pd_files demo_load) "/data"
           (Py.Str "1") (Py.Str "100") "sub1" PD "/out" empty_world (RegInt 100)
           ["/data/sub1_t1_e1.nii"; "/data/sub1_mt_e1.nii"] PDw Hreq eq_refl eq_refl).
  - intros p Hp _. in_listing Hp ltac:(by eexists).
  - intros p Hp. in_listing Hp ltac:(vm_compute; discriminate).
Defined.

(** C10. Whatever the value of [--contrast], a run in which some contrast
    kind (T1, PD or MT) has no candidate file ends with an exception
    before any compositor call and without writing a file; when nothing
    fails earlier the exception is the [UnboundLocalError] of the [return]
    of [get_img_arrays], on a variable of a kind without candidate. *)
Theorem every_contrast_must_be_bound
    E path2img echo reg subID contrast path2save σ k :
  (∀ paths, get_img_paths E path2img echo σ = (σ, Ok paths) →
            ∀ p, p ∈ paths → branch_of p ≠ Some k) →
  (∃ σ' e,
     main E path2img echo reg subID contrast path2save σ = (σ', Raise e) ∧
     written σ' = written σ ∧ calls σ' = calls σ) ∧
  (∀ rs paths,
     parse_reg reg σ = (σ, Ok rs) →
     get_img_paths E path2img echo σ = (σ, Ok paths) →
     loadable E paths →
     ∃ σ' k',
       main E path2img echo reg subID contrast path2save σ
         = (σ', Raise (UnboundLocalError (data_var k'))) ∧
       last_match k' paths = None).
Proof.
  intros Hk. split; [by eapply main_stops_before_compositing|].
  intros rs paths Hreg Hpaths Hload.
  destruct (main_fails_unbound E path2img echo reg subID contrast path2save σ rs paths k
              Hreg Hpaths Hload (Hk paths Hpaths)) as (σ' & k' & Hrun & Hl & _).
  by exists σ', k'.
Qed.

Lemma every_contrast_must_be_bound_witness :
  ∃ σ' e,
    main (demo_env no_mt_files demo_load) "/data" (Py.Str "1") (Py.Str "100") "sub1"
      "PD" "/out" empty_world = (σ', Raise e) ∧
    written σ' = written empty_world ∧ calls σ' = calls empty_world.
Proof.
  apply (every_contrast_must_be_bound (demo_env no_mt_files demo_load) "/data"
           (Py.Str "1") (Py.Str "100") "sub1" "PD" "/out" empty_world MTw).
  intros paths Hpaths p Hp. vm_compute in Hpaths. injection Hpaths as <-.
  in_listing Hp ltac:(vm_compute; discriminate).
Defined.

(** In that run the variable is [mtw_data], although mode PD never reads
    the MT volume. *)
Example mode_pd_without_mt_file :
  (main (demo_env no_mt_files demo_load) "/data" (Py.Str "1") (Py.Str "100") "sub1"
     "PD" "/out" empty_world).2 = Raise (UnboundLocalError "mtw_data").
Proof. reflexivity. Qed.

(** ** File names of a sweep *)

Lemma string_length_app (a b : string) :
  String.length (a +:+ b) = (String.length a + String.length b)%nat.
Proof.
  induction a as [|c a IH]; [done|].
  change (String c a +:+ b) with (String c (a +:+ b)). simpl. by rewrite IH.
Qed.

Lemma string_app_inj_r (s a b : string) : a +:+ s = b +:+ s → a = b.
Proof.
  intros H.
  assert (Hlen : String.length a = String.length b).
  { apply (f_equal String.length) in H. rewrite !string_length_app in H. lia. }
  revert b H Hlen. induction a as [|c a IH]; intros [|c' b]; simpl; try discriminate; [done|].
  intros [= -> H] [= Hlen]. f_equal. by apply IH.
Qed.

Lemma string_app_nil_r (s : string) : s +:+ "" = s.
Proof.
  induction s as [|c s IH]; [done|].
  change (String c s +:+ "") with (String c (s +:+ "")). by rewrite IH.
Qed.

Lemma img_name_inj subID name echo weight r1 r2 :
  img_name subID name echo weight r1 = img_name subID name echo weight r2 → r1 = r2.
Proof.
  unfold img_name. intros H.
  repeat apply String.app_inj in H.
  by apply string_app_inj_r in H.
Qed.

Lemma img_name_head subID name echo weight r1 r2 :
  Py.starts_with_slash (img_name subID name echo weight r1) =
  Py.starts_with_slash (img_name subID name echo weight r2).
Proof. unfold img_name. by destruct subID. Qed.

Lemma path_join_inj a b1 b2 :
  Py.starts_with_slash b1 = Py.starts_with_slash b2 →
  Py.path_join a b1 = Py.path_join a b2 → b1 = b2.
Proof.
  unfold Py.path_join. intros ->.
  destruct (Py.starts_with_slash b2); [done|].
  destruct a as [|c a]; [done|].
  destruct (Py.ends_with_slash (String c a)); intros H.
  - by apply String.app_inj in H.
  - by do 2 apply String.app_inj in H.
Qed.

(** Two artifacts of one run have the same path only if they print the
    same regularisation value. *)
Lemma artifact_path_inj path2save subID echo weight r1 r2 :
  artifact_path path2save subID r1 echo weight = artifact_path path2save subID r2 echo weight →
  Py.str r1 = Py.str r2.
Proof.
  unfold artifact_path. intros H.
  apply path_join_inj in H; [|apply img_name_head]. by apply img_name_inj in H.
Qed.

Lemma remove_char_app c (a b : string) :
  Py.remove_char c (a +:+ b) = Py.remove_char c a +:+ Py.remove_char c b.
Proof.
  induction a as [|x a IH]; [done|].
  change (String x a +:+ b) with (String x (a +:+ b)). cbn [Py.remove_char].
  rewrite IH. by destruct (Ascii.eqb x c).
Qed.

Lemma tokens_closing_bracket (s : string) : tokens (s +:+ "]") = tokens s.
Proof.
  unfold tokens. rewrite !remove_char_app.
  change (Py.remove_char "]" (Py.remove_char "[" "]")) with "".
  by rewrite string_app_nil_r.
Qed.

(** ** Runs of [main] on loaded volumes *)

Lemma main_sweep_run E path2img echo s subID (m : ContrastMode) path2save σ paths σ1 v xs ys zs :
  Py.contains "[" s = true →
  get_img_paths E path2img echo σ = (σ, Ok paths) →
  get_img_arrays E paths σ = (σ1, Ok v) →
  inputs_at (t1w_data v) (pdw_data v) (mtw_data v) xs ys zs σ1 →
  ∃ σ',
    main E path2img echo (Py.Str s) subID (weight_of m) path2save σ
      = (σ', if forallb parses (tokens s) then Ok () else Raise ValueError) ∧
    calls σ' = calls σ ++ ((λ r, (reg_value r, weight_of m)) <$> good_prefix (tokens s)) ∧
    written σ' = written σ ++
      (artifact m v xs ys zs path2save subID echo <$> good_prefix (tokens s)).
Proof.
  intros Hs Hpaths Harr Hin.
  destruct (get_img_arrays_grows _ _ _ _ _ Harr) as [_ (_ & Hw & _ & Hc)].
  destruct (sweep_run E v path2save subID echo m xs ys zs (tokens s) σ1 Hin)
    as (σ' & Hrun & _ & C' & W').
  exists σ'. split; [|by rewrite C', W', Hc, Hw].
  unfold main.
  assert (Hreg : parse_reg (Py.Str s) σ = (σ, Ok (RegList (tokens s))))
    by (unfold parse_reg; by rewrite Hs).
  step Hreg. step Hpaths. step Harr. exact Hrun.
Qed.

Lemma main_scalar_run E path2img echo s n subID (m : ContrastMode) path2save σ paths σ1 v xs ys zs :
  Py.contains "[" s = false → Py.int s = Some n →
  get_img_paths E path2img echo σ = (σ, Ok paths) →
  get_img_arrays E paths σ = (σ1, Ok v) →
  inputs_at (t1w_data v) (pdw_data v) (mtw_data v) xs ys zs σ1 →
  ∃ σ',
    main E path2img echo (Py.Str s) subID (weight_of m) path2save σ = (σ', Ok ()) ∧
    calls σ' = calls σ ++ [(n, weight_of m)] ∧
    written σ' = written σ ++
      [(artifact_path path2save subID (Py.Int n) echo (weight_of m),
        cleanup <$> raw_array m n xs ys zs, t1w_affine v)].
Proof.
  intros Hs Hn Hpaths Harr Hin.
  destruct (get_img_arrays_grows _ _ _ _ _ Harr) as [_ (_ & Hw & _ & Hc)].
  destruct (mprage_like_img_run _ _ _ _ _ _ n m σ1 Hin)
    as (l & σ2 & E2 & F2 & N2 & S2 & _ & W2 & _ & C2).
  destruct (save_mprage_like_run E l (t1w_affine v) path2save subID (Py.Int n) echo m σ2 _ N2)
    as (σ3 & E3 & S3 & C3 & W3).
  exists σ3. split; [|by rewrite C3, C2, W3, W2, Hc, Hw].
  unfold main.
  assert (Hreg : parse_reg (Py.Str s) σ = (σ, Ok (RegInt n)))
    by (unfold parse_reg; by rewrite Hs, Hn).
  step Hreg. step Hpaths. step Harr. by step E2.
Qed.

Lemma demo_inputs :
  inputs_at (t1w_data demo_volumes) (pdw_data demo_volumes) (mtw_data demo_volumes)
    demo_t1 demo_pd demo_pd demo_loaded.
Proof. vm_compute. repeat split. Defined.

Lemma demo_listing :
  get_img_paths demo_E "/data" (Py.Str "1") empty_world = (empty_world, Ok demo_paths).
Proof. reflexivity. Defined.

Lemma demo_loading :
  get_img_arrays demo_E demo_paths empty_world = (demo_loaded, Ok demo_volumes).
Proof. vm_compute. reflexivity. Defined.

(** C5, as stated, fails: with the spec "[0, abc]" the run ends with
    [ValueError] only after the image for 0 was composed and saved, and
    the unbalanced spec "[0, 100" raises nothing at all. *)
Lemma bad_list_element_fails_after_compositing :
  let run s := main demo_E "/data" (Py.Str "1") (Py.Str s) "sub1" "all" "/out" empty_world in
  (run "[0, abc]").2 = Raise ValueError ∧
  calls (run "[0, abc]").1 = [(0, "all")] ∧
  length (written (run "[0, abc]").1) = 1%nat ∧
  (run "[0, 100").2 = Ok () ∧
  calls (run "[0, 100").1 = [(0, "all"); (100, "all")].
Proof. vm_compute. repeat split. Qed.

(** C5, as amended. A spec without "[" that is not an integer literal
    fails with [ValueError] before anything else happens.  A spec with "["
    is only split at its commas: an element that is not an integer literal
    makes the run fail with [ValueError] when the sweep reaches it, after
    one compositor call and one saved image for each element before it.
    Brackets are removed wherever they stand, so a missing closing bracket
    changes nothing. *)
Theorem malformed_reg_spec_failure E path2img echo subID path2save σ :
  (∀ s contrast,
     Py.contains "[" s = false → Py.int s = None →
     main E path2img echo (Py.Str s) subID contrast path2save σ = (σ, Raise ValueError)) ∧
  (∀ s (m : ContrastMode) paths σ1 v xs ys zs,
     Py.contains "[" s = true →
     forallb parses (tokens s) = false →
     get_img_paths E path2img echo σ = (σ, Ok paths) →
     get_img_arrays E paths σ = (σ1, Ok v) →
     inputs_at (t1w_data v) (pdw_data v) (mtw_data v) xs ys zs σ1 →
     ∃ σ',
       main E path2img echo (Py.Str s) subID (weight_of m) path2save σ
         = (σ', Raise ValueError) ∧
       calls σ' = calls σ ++ ((λ r, (reg_value r, weight_of m)) <$> good_prefix (tokens s)) ∧
       written σ' = written σ ++
         (artifact m v xs ys zs path2save subID echo <$> good_prefix (tokens s))) ∧
  (∀ s, parse_reg (Py.Str ("[" +:+ s +:+ "]")) σ = parse_reg (Py.Str ("[" +:+ s)) σ).
Proof.
  repeat split.
  - intros s contrast Hs Hn. unfold main. apply bind_raise.
    unfold parse_reg. by rewrite Hs, Hn.
  - intros s m paths σ1 v xs ys zs Hs Hbad Hpaths Harr Hin.
    destruct (main_sweep_run E path2img echo s subID m path2save σ paths σ1 v xs ys zs
                Hs Hpaths Harr Hin) as (σ' & Hrun & Hc & Hw).
    rewrite Hbad in Hrun. by exists σ'.
  - intros s. unfold parse_reg.
    change (Py.contains "[" ("[" +:+ s +:+ "]")) with true.
    change (Py.contains "[" ("[" +:+ s)) with true. cbv iota.
    pose proof (tokens_closing_bracket ("[" +:+ s)) as Ht. unfold tokens in Ht.
    change (("[" +:+ s) +:+ "]") with ("[" +:+ s +:+ "]") in Ht. by rewrite Ht.
Qed.

Lemma malformed_reg_spec_failure_witness :
  ∃ σ',
    main demo_E "/data" (Py.Str "1") (Py.Str "[0, abc, 7]") "sub1" (weight_of ALL) "/out"
      empty_world = (σ', Raise ValueError) ∧
    calls σ' = [(0, "all")] ∧
    written σ' = [artifact ALL demo_volumes demo_t1 demo_pd demo_pd "/out" "sub1"
                    (Py.Str "1") "0"].
Proof.
  exact (proj1 (proj2 (malformed_reg_spec_failure demo_E "/data" (Py.Str "1") "sub1" "/out"
           empty_world))
         "[0, abc, 7]" ALL demo_paths demo_loaded demo_volumes demo_t1 demo_pd demo_pd
         eq_refl eq_refl demo_listing demo_loading demo_inputs).
Defined.

(** C8. Once the three volumes are loaded with one shape, the spec
    "[0, 100, 300]" makes exactly three compositor calls, for 0, 100 and
    300, and writes exactly three files; their paths are pairwise distinct
    and each is built from the subject id, the echo, the mode and its own
    element of the spec.  The spec "100" makes one call and writes one
    file. *)
Theorem sweep_of_three_values
    E path2img echo subID (m : ContrastMode) path2save σ paths σ1 v xs ys zs :
  get_img_paths E path2img echo σ = (σ, Ok paths) →
  get_img_arrays E paths σ = (σ1, Ok v) →
  inputs_at (t1w_data v) (pdw_data v) (mtw_data v) xs ys zs σ1 →
  (∃ σ',
     main E path2img echo (Py.Str "[0, 100, 300]") subID (weight_of m) path2save σ
       = (σ', Ok ()) ∧
     calls σ' = calls σ ++ [(0, weight_of m); (100, weight_of m); (300, weight_of m)] ∧
     written σ' = written σ ++
       [artifact m v xs ys zs path2save subID echo "0";
        artifact m v xs ys zs path2save subID echo " 100";
        artifact m v xs ys zs path2save subID echo " 300"] ∧
     NoDup [artifact_path path2save subID (Py.Str "0") echo (weight_of m);
            artifact_path path2save subID (Py.Str " 100") echo (weight_of m);
            artifact_path path2save subID (Py.Str " 300") echo (weight_of m)]) ∧
  (∃ σ',
     main E path2img echo (Py.Str "100") subID (weight_of m) path2save σ = (σ', Ok ()) ∧
     calls σ' = calls σ ++ [(100, weight_of m)] ∧
     written σ' = written σ ++
       [(artifact_path path2save subID (Py.Int 100) echo (weight_of m),
         cleanup <$> raw_array m 100 xs ys zs, t1w_affine v)]).
Proof.
  intros Hpaths Harr Hin. split.
  - destruct (main_sweep_run E path2img echo "[0, 100, 300]" subID m path2save
                σ paths σ1 v xs ys zs eq_refl Hpaths Harr Hin) as (σ' & Hrun & Hc & Hw).
    exists σ'. split; [exact Hrun|]. split; [exact Hc|]. split; [exact Hw|].
    repeat constructor; rewrite ?elem_of_cons, ?elem_of_nil;
      intros H; repeat destruct H as [H|H]; try done;
      apply artifact_path_inj in H; discriminate.
  - exact (main_scalar_run E path2img echo "100" 100 subID m path2save
             σ paths σ1 v xs ys zs eq_refl eq_refl Hpaths Harr Hin).
Qed.

Lemma sweep_of_three_values_witness :
  (∃ σ',
     main demo_E "/data" (Py.Str "1") (Py.Str "[0, 100, 300]") "sub1" (weight_of ALL)
       "/out" empty_world = (σ', Ok ()) ∧
     calls σ' = calls empty_world ++
       [(0, weight_of ALL); (100, weight_of ALL); (300, weight_of ALL)] ∧
     written σ' = written empty_world ++
       [artifact ALL demo_volumes demo_t1 demo_pd demo_pd "/out" "sub1" (Py.Str "1") "0";
        artifact ALL demo_volumes demo_t1 demo_pd demo_pd "/out" "sub1" (Py.Str "1") " 100";
        artifact ALL demo_volumes demo_t1 demo_pd demo_pd "/out" "sub1" (Py.Str "1") " 300"] ∧
     NoDup [artifact_path "/out" "sub1" (Py.Str "0") (Py.Str "1") (weight_of ALL);
            artifact_path "/out" "sub1" (Py.Str " 100") (Py.Str "1") (weight_of ALL);
            artifact_path "/out" "sub1" (Py.Str " 300") (Py.Str "1") (weight_of ALL)]) ∧
  (∃ σ',
     main demo_E "/data" (Py.Str "1") (Py.Str "100") "sub1" (weight_of ALL) "/out"
       empty_world = (σ', Ok ()) ∧
     calls σ' = calls empty_world ++ [(100, weight_of ALL)] ∧
     written σ' = written empty_world ++
       [(artifact_path "/out" "sub1" (Py.Int 100) (Py.Str "1") (weight_of ALL),
         cleanup <$> raw_array ALL 100 demo_t1 demo_pd demo_pd, t1w_affine demo_volumes)]).
Proof.
  exact (sweep_of_three_values demo_E "/data" (Py.Str "1") "sub1" ALL "/out" empty_world
           demo_paths demo_loaded demo_volumes demo_t1 demo_pd demo_pd
           demo_listing demo_loading demo_inputs).
Defined.

(** The three files of that sweep: the elements after the first keep the
    blank that follows their comma. *)
Example sweep_file_names :
  (written (main demo_E "/data" (Py.Str "1") (Py.Str "[0, 100, 300]") "sub1" "all" "/out"
              empty_world).1).*1.*1
  = ["/out/mprage-like/sub1_mprage-like_e1_all_reg0.nii";
     "/out/mprage-like/sub1_mprage-like_e1_all_reg 100.nii";
     "/out/mprage-like/sub1_mprage-like_e1_all_reg 300.nii"].
Proof. vm_compute. reflexivity. Qed.

(** * Further properties of the script *)

(** ** The selector *)

Lemma filter_nil_iff {A} (p : A → bool) (l : list A) :
  List.filter p l = [] ↔ ∀ x, x ∈ l → p x = false.
Proof.
  induction l as [|a l IH]; simpl.
  - split; [intros _ x Hx; by apply elem_of_nil in Hx|done].
  - destruct (p a) eqn:Ha.
    + split; [done|]. intros H. specialize (H a (list_elem_of_here _ _)). congruence.
    + rewrite IH. split.
      * intros H x Hx. apply elem_of_cons in Hx as [->|Hx]; auto.
      * intros H x Hx. apply H. by right.
Qed.

Lemma elem_of_filter_bool {A} (p : A → bool) (l : list A) x :
  x ∈ List.filter p l ↔ x ∈ l ∧ p x = true.
Proof. rewrite !list_elem_of_In. apply filter_In. Qed.

Lemma filter_filter_andb {A} (p q : A → bool) (l : list A) :
  List.filter q (List.filter p l) = List.filter (λ x, p x && q x) l.
Proof.
  induction l as [|a l IH]; [done|]. simpl.
  destruct (p a); simpl; [|exact IH]. destruct (q a); by rewrite IH.
Qed.

(** The value of [get_img_paths] on a readable directory. *)
Lemma get_img_paths_value E path2img echo σ files :
  listdir E path2img = Some files →
  get_img_paths E path2img echo σ =
    (σ, Ok ((λ f, Py.path_join path2img f) <$>
            List.filter (λ f, negb (is_phase f))
              (match List.filter (has_echo_token echo) files with
               | [] => List.filter (λ f, Py.contains ".nii" f) files
               | l => l
               end))).
Proof.
  intros Hls. unfold get_img_paths, os_listdir. cbv zeta. rewrite Hls.
  change (Py.and_ ".nii" ("_e" +:+ Py.str echo)) with (echo_token echo).
  unfold mbind, M_bind, mret, M_ret.
  change (λ f, Py.contains (echo_token echo) f) with (has_echo_token echo).
  by destruct (List.filter (has_echo_token echo) files).
Qed.

(** X1. Whatever [get_img_paths] returns, it changed nothing in the world,
    and every returned path is the directory joined with a file of the
    listing whose name contains neither "_ph" nor "phase" and contains the
    echo token or ".nii". *)
Theorem get_img_paths_sound E path2img echo σ σ' paths :
  get_img_paths E path2img echo σ = (σ', Ok paths) →
  σ' = σ ∧
  ∃ files, listdir E path2img = Some files ∧
    ∀ p, p ∈ paths →
      ∃ f, f ∈ files ∧ p = Py.path_join path2img f ∧
           Py.contains "_ph" f = false ∧ Py.contains "phase" f = false ∧
           (Py.contains (echo_token echo) f = true ∨ Py.contains ".nii" f = true).
Proof.
  intros Hrun. destruct (listdir E path2img) as [files|] eqn:Hls.
  2: { unfold get_img_paths, os_listdir in Hrun. cbv zeta in Hrun. by rewrite Hls in Hrun. }
  rewrite (get_img_paths_value _ _ _ _ _ Hls) in Hrun. injection Hrun as <- <-.
  split; [done|]. exists files. split; [done|].
  intros p Hp. apply list_elem_of_fmap in Hp as (f & -> & Hf).
  apply elem_of_filter_bool in Hf as [Hf Hph].
  apply negb_true_iff, orb_false_iff in Hph as [H1 H2].
  assert (f ∈ files ∧ (Py.contains (echo_token echo) f = true ∨ Py.contains ".nii" f = true))
    as [Hin Htok].
  { destruct (List.filter (has_echo_token echo) files) eqn:Hfl.
    - apply elem_of_filter_bool in Hf as [? ?]. auto.
    - rewrite <- Hfl in Hf. apply elem_of_filter_bool in Hf as [? ?]. auto. }
  by exists f.
Qed.

Lemma get_img_paths_sound_witness :
  ∃ files, listdir demo_E "/data" = Some files ∧
    ∀ p, p ∈ demo_paths →
      ∃ f, f ∈ files ∧ p = Py.path_join "/data" f ∧
           Py.contains "_ph" f = false ∧ Py.contains "phase" f = false ∧
           (Py.contains (echo_token (Py.Str "1")) f = true ∨ Py.contains ".nii" f = true).
Proof.
  exact (proj2 (get_img_paths_sound demo_E "/data" (Py.Str "1") empty_world empty_world
                  demo_paths demo_listing)).
Defined.

(** X2. As soon as one file name of the directory contains the echo token,
    [get_img_paths] returns, in listing order, exactly the files whose
    name contains the token and no phase marker, joined to the directory;
    a file without the token is not returned. *)
Theorem get_img_paths_echo_match E path2img echo σ files f0 :
  listdir E path2img = Some files →
  f0 ∈ files → Py.contains (echo_token echo) f0 = true →
  get_img_paths E path2img echo σ =
    (σ, Ok ((λ f, Py.path_join path2img f) <$>
            List.filter (λ f, has_echo_token echo f && negb (is_phase f)) files)).
Proof.
  intros Hls Hf0 He. rewrite (get_img_paths_value _ _ _ _ _ Hls).
  destruct (List.filter (has_echo_token echo) files) eqn:Hfl.
  { pose proof (proj1 (filter_nil_iff _ _) Hfl f0 Hf0) as H. unfold has_echo_token in H.
    congruence. }
  rewrite <- Hfl. by rewrite filter_filter_andb.
Qed.

Lemma get_img_paths_echo_match_witness :
  get_img_paths demo_E "/data" (Py.Str "1") empty_world =
    (empty_world, Ok ((λ f, Py.path_join "/data" f) <$>
       List.filter (λ f, has_echo_token (Py.Str "1") f && negb (is_phase f)) demo_files)).
Proof.
  apply (get_img_paths_echo_match demo_E "/data" (Py.Str "1") empty_world demo_files
           "sub1_t1_e1.nii" eq_refl); [by left|reflexivity].
Defined.

(** X3. When no file name of the directory contains the echo token,
    [get_img_paths] falls back to the files whose name contains ".nii":
    it returns, in listing order, exactly those without a phase marker,
    joined to the directory. *)
Theorem get_img_paths_fallback E path2img echo σ files :
  listdir E path2img = Some files →
  (∀ f, f ∈ files → Py.contains (echo_token echo) f = false) →
  get_img_paths E path2img echo σ =
    (σ, Ok ((λ f, Py.path_join path2img f) <$>
            List.filter (λ f, Py.contains ".nii" f && negb (is_phase f)) files)).
Proof.
  intros Hls Hno. rewrite (get_img_paths_value _ _ _ _ _ Hls).
  rewrite (proj2 (filter_nil_iff (has_echo_token echo) files) Hno).
  by rewrite filter_filter_andb.
Qed.

Lemma get_img_paths_fallback_witness :
  get_img_paths (demo_env single_echo_files demo_load) "/data" (Py.Int 1) empty_world =
    (empty_world, Ok ["/data/sub1_T1.nii"; "/data/sub1_PD.nii"; "/data/sub1_MT.nii"]).
Proof.
  apply (get_img_paths_fallback (demo_env single_echo_files demo_load) "/data" (Py.Int 1)
           empty_world single_echo_files eq_refl).
  intros f Hf. in_listing Hf ltac:(reflexivity).
Defined.

(** X4. With an accepted regularisation spec, a directory in which no
    file name contains the echo token or ".nii" makes [main] stop with
    [UnboundLocalError] on [t1w_data]; the world is left as it was. *)
Theorem no_image_file_fails E path2img echo reg subID contrast path2save σ rs files :
  parse_reg reg σ = (σ, Ok rs) →
  listdir E path2img = Some files →
  (∀ f, f ∈ files → Py.contains (echo_token echo) f = false ∧ Py.contains ".nii" f = false) →
  main E path2img echo reg subID contrast path2save σ
    = (σ, Raise (UnboundLocalError "t1w_data")).
Proof.
  intros Hreg Hls Hno. unfold main. step Hreg.
  assert (Hpaths : get_img_paths E path2img echo σ = (σ, Ok [])).
  { rewrite (get_img_paths_value _ _ _ _ _ Hls).
    rewrite (proj2 (filter_nil_iff (has_echo_token echo) files));
      [|intros f Hf; by apply Hno].
    rewrite (proj2 (filter_nil_iff (λ f, Py.contains ".nii" f) files));
      [done|intros f Hf; by apply Hno]. }
  step Hpaths. by apply bind_raise.
Qed.

Lemma no_image_file_fails_witness :
  main (demo_env no_image_files demo_load) "/data" (Py.Str "1") (Py.Str "100") "sub1"
    "all" "/out" empty_world = (empty_world, Raise (UnboundLocalError "t1w_data")).
Proof.
  apply (no_image_file_fails (demo_env no_image_files demo_load) "/data" (Py.Str "1")
           (Py.Str "100") "sub1" "all" "/out" empty_world (RegInt 100) no_image_files
           eq_refl eq_refl).
  intros f Hf. in_listing Hf ltac:(split; reflexivity).
Defined.

(** ** The compositor *)

Lemma SFcompare_total (x y : F) :
  F32.is_nan x = false → F32.is_nan y = false → ∃ c, SFcompare x y = Some c.
Proof. destruct x, y; simpl; try discriminate; eauto. Qed.

Lemma not_gtb_leb (x y : F) :
  F32.is_nan x = false → F32.is_nan y = false → F32.gtb x y = false → F32.leb x y = true.
Proof.
  intros Hx Hy. unfold F32.gtb, F32.leb, SFltb, SFleb.
  destruct (SFcompare_total y x Hy Hx) as [c Hc]. rewrite Hc.
  rewrite (SFcompare_antisym _ _ _ Hc). by destruct c.
Qed.

Lemma not_ltb_leb (x y : F) :
  F32.is_nan x = false → F32.is_nan y = false → F32.ltb x y = false → F32.leb y x = true.
Proof. intros Hx Hy. apply (not_gtb_leb y x Hy Hx). Qed.

(** Whatever the voxel, the four statements leave a finite value between 0
    and 500. *)
Lemma cleanup_in_range_always (x : F) : in_range (cleanup x) = true.
Proof.
  destruct x as [[]|[]| |s m e]; try reflexivity.
  unfold cleanup. cbv zeta.
  change (F32.nan_to_num (S754_finite s m e)) with (S754_finite s m e).
  rewrite finite_not_inf by reflexivity.
  destruct (F32.gtb (S754_finite s m e) (F32.of_int 500)) eqn:Hgt; [reflexivity|].
  destruct (F32.ltb (S754_finite s m e) (F32.of_int 0)) eqn:Hlt; [reflexivity|].
  unfold in_range.
  rewrite (not_gtb_leb (S754_finite s m e) (F32.of_int 500) eq_refl eq_refl Hgt).
  rewrite (not_ltb_leb (S754_finite s m e) (F32.of_int 0) eq_refl eq_refl Hlt).
  reflexivity.
Qed.

(** X5. Every voxel of the array [mprage_like_img] returns is finite (no
    NaN, no infinity), at least 0 and at most 500, whatever the inputs hold
    and whatever the mode and the regularisation value. *)
Theorem compositor_output_in_range
    (m : ContrastMode) (reg : Z) (t1 pd mt : loc) (xs ys zs : list F) (σ : world) :
  inputs_at t1 pd mt xs ys zs σ →
  ∃ out σ' l,
    mprage_like_img t1 pd mt reg (weight_of m) σ = (σ', Ok l) ∧
    heap σ' !! l = Some (F32Array out) ∧
    ∀ x, x ∈ out →
      F32.is_finite x = true ∧
      F32.leb (F32.of_int 0) x = true ∧ F32.leb x (F32.of_int 500) = true.
Proof.
  intros Hin.
  destruct (mprage_like_img_run t1 pd mt xs ys zs reg m σ Hin)
    as (l & σ' & Hrun & _ & Hout & _).
  eexists _, σ', l. split; [exact Hrun|]. split; [exact Hout|].
  intros x Hx. apply list_elem_of_fmap in Hx as (r & -> & _).
  pose proof (cleanup_in_range_always r) as H. unfold in_range in H.
  apply andb_true_iff in H as [H H3]. apply andb_true_iff in H as [H1 H2]. done.
Qed.

Lemma compositor_output_in_range_witness :
  ∃ out σ' l,
    mprage_like_img 0%nat 1%nat 2%nat 0 (weight_of PD) demo_heap_world = (σ', Ok l) ∧
    heap σ' !! l = Some (F32Array out) ∧
    ∀ x, x ∈ out →
      F32.is_finite x = true ∧
      F32.leb (F32.of_int 0) x = true ∧ F32.leb x (F32.of_int 500) = true.
Proof.
  exact (compositor_output_in_range PD 0 0%nat 1%nat 2%nat _ _ _ _ demo_heap_inputs).
Defined.

Lemma SFadd_comm (x y : F) : F32.add x y = F32.add y x.
Proof.
  unfold F32.add.
  destruct x as [[]|[]| |sx mx ex], y as [[]|[]| |sy my ey]; try reflexivity.
  unfold SFadd. by rewrite (Z.min_comm ex ey), Z.add_comm.
Qed.

Lemma raw_array_all_comm reg (xs ys zs : list F) :
  raw_array ALL reg xs ys zs = raw_array ALL reg xs zs ys.
Proof.
  unfold raw_array. do 3 f_equal.
  revert zs. induction ys as [|y ys IH]; intros [|z zs]; try reflexivity.
  simpl. by rewrite SFadd_comm, IH.
Qed.

(** X6. In mode 'all' the PD and the MT volume play the same part:
    exchanging the two arguments gives an array with the same voxels, bit
    for bit. *)
Theorem all_mode_symmetric_in_pd_mt
    (reg : Z) (t1 pd mt : loc) (xs ys zs : list F) (σ : world) :
  inputs_at t1 pd mt xs ys zs σ →
  ∃ out σ1 l1 σ2 l2,
    mprage_like_img t1 pd mt reg "all" σ = (σ1, Ok l1) ∧
    mprage_like_img t1 mt pd reg "all" σ = (σ2, Ok l2) ∧
    heap σ1 !! l1 = Some (F32Array out) ∧
    heap σ2 !! l2 = Some (F32Array out).
Proof.
  intros Hin.
  assert (Hin' : inputs_at t1 mt pd xs zs ys σ).
  { destruct Hin as (?&?&?&?&?). repeat split; try done; lia. }
  destruct (mprage_like_img_run t1 pd mt xs ys zs reg ALL σ Hin)
    as (l1 & σ1 & Hrun1 & _ & Hout1 & _).
  destruct (mprage_like_img_run t1 mt pd xs zs ys reg ALL σ Hin')
    as (l2 & σ2 & Hrun2 & _ & Hout2 & _).
  eexists _, σ1, l1, σ2, l2. split; [exact Hrun1|]. split; [exact Hrun2|].
  split; [exact Hout1|]. by rewrite Hout2, raw_array_all_comm.
Qed.

Lemma all_mode_symmetric_in_pd_mt_witness :
  ∃ out σ1 l1 σ2 l2,
    mprage_like_img 0%nat 1%nat 2%nat 100 "all" demo_heap_world = (σ1, Ok l1) ∧
    mprage_like_img 0%nat 2%nat 1%nat 100 "all" demo_heap_world = (σ2, Ok l2) ∧
    heap σ1 !! l1 = Some (F32Array out) ∧
    heap σ2 !! l2 = Some (F32Array out).
Proof.
  exact (all_mode_symmetric_in_pd_mt 100 0%nat 1%nat 2%nat _ _ _ _ demo_heap_inputs).
Defined.

(** From the quotient on, [mprage_like_img] only cleans: it copies the
    quotient with [np.nan_to_num] and masks the copy three times. *)
Lemma cleanup_tail_run t1 pd mt reg weight σ q σ1 raws :
  ratio_branch t1 pd mt reg weight (logged reg weight σ) = (σ1, Ok (Some q)) →
  heap σ1 !! q = Some (F32Array raws) →
  grows (logged reg weight σ) σ1 →
  ∃ l σ',
    mprage_like_img t1 pd mt reg weight σ = (σ', Ok l) ∧
    heap σ !! l = None ∧
    heap σ' !! l = Some (F32Array (cleanup <$> raws)) ∧
    heap σ ⊆ heap σ' ∧
    made_dirs σ' = made_dirs σ ∧ written σ' = written σ ∧
    calls σ' = calls σ ++ [(reg, weight)].
Proof.
  intros E1 N1 G1. unfold mprage_like_img.
  rewrite (bind_ok (log_call reg weight) _ σ (logged reg weight σ) tt eq_refl).
  unfold ratio_branch in E1. step E1.
  rewrite (bind_ok (read_local "mprage_like" (Some q)) _ σ1 σ1 q eq_refl).
  destruct (map_f32_spec F32.nan_to_num q σ1 _ N1) as (n & σ2 & E2 & F2 & N2 & G2).
  unfold Np.nan_to_num. step E2. cbv zeta.
  pose proof (grows_trans _ _ _ G1 G2) as G.
  pose proof (grows_fresh _ _ _ G1 F2) as Fa.
  destruct (mask_assign_step (λ x, F32.eqb x F32.inf) (F32.of_int 0) n
              (m0 ← Np.compare_scalar (λ x, F32.gtb x (F32.of_int 500)) n;
               Np.setitem_mask n m0 (F32.of_int 0);;
               m1 ← Np.compare_scalar (λ x, F32.ltb x (F32.of_int 0)) n;
               Np.setitem_mask n m1 (F32.of_int 0);; mret n) σ2 _ N2)
    as (σ3 & -> & N3 & I3 & G3).
  destruct (mask_assign_step (λ x, F32.gtb x (F32.of_int 500)) (F32.of_int 0) n
              (m1 ← Np.compare_scalar (λ x, F32.ltb x (F32.of_int 0)) n;
               Np.setitem_mask n m1 (F32.of_int 0);; mret n) σ3 _ N3)
    as (σ4 & -> & N4 & I4 & G4).
  destruct (mask_assign_step (λ x, F32.ltb x (F32.of_int 0)) (F32.of_int 0) n
              (mret n) σ4 _ N4)
    as (σ5 & -> & N5 & I5 & G5).
  exists n, σ5. split; [reflexivity|].
  split; [exact Fa|]. split.
  { rewrite N5. do 2 f_equal. rewrite <- !list_fmap_compose.
    apply list_fmap_ext. intros i x _. reflexivity. }
  destruct (G5 _ Fa (G4 _ Fa (G3 _ Fa G))) as [Hh (Hd & Hw & Hs & Hc)].
  repeat split; assumption.
Qed.

Lemma two_array_ratio_run t1 d reg σ xs ds :
  heap σ !! t1 = Some (F32Array xs) → heap σ !! d = Some (F32Array ds) →
  length xs = length ds →
  ∃ q σ',
    (num ← Np.sub_scalar t1 (F32.of_int reg);
     den ← Np.add_scalar d (F32.of_int reg);
     q ← Np.divide num den;
     mret (Some q)) σ = (σ', Ok (Some q)) ∧
    heap σ' !! q = Some (F32Array (zip_with F32.div ((λ x, F32.sub x (F32.of_int reg)) <$> xs)
                                     ((λ x, F32.add x (F32.of_int reg)) <$> ds))) ∧
    grows σ σ'.
Proof.
  intros H1 H2 L.
  destruct (map_f32_spec (λ x, F32.sub x (F32.of_int reg)) t1 σ xs H1)
    as (num & σ1 & E1 & F1 & N1 & G1).
  destruct (map_f32_spec (λ x, F32.add x (F32.of_int reg)) d σ1 ds)
    as (den & σ2 & E2 & F2 & N2 & G2); [by eapply grows_lookup|].
  destruct (zip_f32_spec F32.div num den σ2 _ _ (grows_lookup _ _ _ _ G2 N1) N2)
    as (q & σ3 & E3 & F3 & N3 & G3).
  { rewrite !length_fmap. lia. }
  exists q, σ3. split.
  { unfold Np.sub_scalar, Np.add_scalar, Np.divide. step E1. step E2. step E3. reflexivity. }
  split; [exact N3|]. eauto using grows_trans.
Qed.

(** X7. A two-contrast mode reads only its two arrays: mode 'PD' returns
    the cleaned ratios of T1 and PD whatever the third argument refers to
    (an array of another shape, or nothing), and mode 'MT' likewise
    without looking at the PD argument. *)
Theorem two_contrast_modes_ignore_third
    (reg : Z) (t1 pd mt : loc) (xs ds : list F) (σ : world) :
  heap σ !! t1 = Some (F32Array xs) →
  length xs = length ds →
  (heap σ !! pd = Some (F32Array ds) →
   ∃ l σ', mprage_like_img t1 pd mt reg "PD" σ = (σ', Ok l) ∧
           ∀ zs, heap σ' !! l = Some (F32Array (cleanup <$> raw_array PD reg xs ds zs))) ∧
  (heap σ !! mt = Some (F32Array ds) →
   ∃ l σ', mprage_like_img t1 pd mt reg "MT" σ = (σ', Ok l) ∧
           ∀ ys, heap σ' !! l = Some (F32Array (cleanup <$> raw_array MT reg xs ys ds))).
Proof.
  intros H1 L. split; intros H2.
  - destruct (two_array_ratio_run t1 pd reg (logged reg "PD" σ) xs ds H1 H2 L)
      as (q & σ1 & E1 & N1 & G1).
    destruct (cleanup_tail_run t1 pd mt reg "PD" σ q σ1 _ E1 N1 G1)
      as (l & σ' & Hrun & _ & Hout & _).
    by exists l, σ'.
  - destruct (two_array_ratio_run t1 mt reg (logged reg "MT" σ) xs ds H1 H2 L)
      as (q & σ1 & E1 & N1 & G1).
    destruct (cleanup_tail_run t1 pd mt reg "MT" σ q σ1 _ E1 N1 G1)
      as (l & σ' & Hrun & _ & Hout & _).
    by exists l, σ'.
Qed.

Lemma two_contrast_modes_ignore_third_witness :
  ∃ l σ', mprage_like_img 0%nat 1%nat 77%nat 100 "PD" demo_heap_world = (σ', Ok l) ∧
          ∀ zs, heap σ' !! l = Some (F32Array (cleanup <$>
                  raw_array PD 100 [F32.of_int 150; F32.of_int 7]
                    [F32.of_int 100; F32.of_int 0] zs)).
Proof.
  exact (proj1 (two_contrast_modes_ignore_third 100 0%nat 1%nat 77%nat
                  [F32.of_int 150; F32.of_int 7] [F32.of_int 100; F32.of_int 0]
                  demo_heap_world eq_refl eq_refl) eq_refl).
Defined.

Lemma unknown_weight_run t1 pd mt reg weight σ :
  weight ∉ ["all"; "MT"; "PD"] →
  mprage_like_img t1 pd mt reg weight σ
    = (logged reg weight σ, Raise (UnboundLocalError "mprage_like")).
Proof.
  intros Hw. unfold mprage_like_img.
  rewrite (bind_ok (log_call reg weight) _ σ (logged reg weight σ) tt eq_refl).
  assert (String.eqb weight "all" = false) as ->
    by (apply String.eqb_neq; intros ->; apply Hw; set_solver).
  assert (String.eqb weight "MT" = false) as ->
    by (apply String.eqb_neq; intros ->; apply Hw; set_solver).
  assert (String.eqb weight "PD" = false) as ->
    by (apply String.eqb_neq; intros ->; apply Hw; set_solver).
  reflexivity.
Qed.

(** X8. A value of [--contrast] other than 'all', 'MT' and 'PD', spelled
    exactly so, is not refused at the start: with an integer spec the run
    lists the directory and loads the three volumes, and only then the
    first compositor call ends with [UnboundLocalError] on [mprage_like],
    before any array is computed; no folder is created and no file
    written. *)
Theorem unknown_contrast_fails_after_loading
    E path2img echo s n subID contrast path2save σ paths σ1 v :
  contrast ∉ ["all"; "MT"; "PD"] →
  Py.contains "[" s = false → Py.int s = Some n →
  get_img_paths E path2img echo σ = (σ, Ok paths) →
  get_img_arrays E paths σ = (σ1, Ok v) →
  ∃ σ',
    main E path2img echo (Py.Str s) subID contrast path2save σ
      = (σ', Raise (UnboundLocalError "mprage_like")) ∧
    heap σ' = heap σ1 ∧ written σ' = written σ ∧ made_dirs σ' = made_dirs σ.
Proof.
  intros Hw Hs Hn Hpaths Harr.
  destruct (get_img_arrays_grows _ _ _ _ _ Harr) as [_ (Hd & Hwr & _ & _)].
  exists (logged n contrast σ1). split; [|by simpl].
  unfold main.
  assert (Hreg : parse_reg (Py.Str s) σ = (σ, Ok (RegInt n)))
    by (unfold parse_reg; by rewrite Hs, Hn).
  step Hreg. step Hpaths. step Harr.
  apply bind_raise. by apply unknown_weight_run.
Qed.

Lemma unknown_contrast_fails_after_loading_witness :
  ∃ σ',
    main demo_E "/data" (Py.Str "1") (Py.Str "100") "sub1" "ALL" "/out" empty_world
      = (σ', Raise (UnboundLocalError "mprage_like")) ∧
    heap σ' = heap demo_loaded ∧ written σ' = written empty_world ∧
    made_dirs σ' = made_dirs empty_world.
Proof.
  apply (unknown_contrast_fails_after_loading demo_E "/data" (Py.Str "1") "100" 100 "sub1"
           "ALL" "/out" empty_world demo_paths demo_loaded demo_volumes);
    [|reflexivity|reflexivity|exact demo_listing|exact demo_loading].
  intros H. repeat (apply elem_of_cons in H as [H'|H]; [discriminate|]).
  by apply elem_of_nil in H.
Defined.

(** ** Loading *)

Lemma load_volume_inv E p σ σ' b :
  load_volume E p σ = (σ', Ok b) →
  heap σ !! b_data b = None ∧ is_Some (heap σ' !! b_data b) ∧ grows σ σ'.
Proof.
  unfold load_volume. destruct (nib_load E p) as [f|]; [|discriminate].
  destruct (alloc_spec (F32Array (nii_data f)) σ) as (d & σ1 & E1 & F1 & N1 & G1).
  step E1. intros [= <- <-]. simpl. eauto.
Qed.

Lemma loop_slots_fresh E paths σ0 vars σ σ' vars' :
  grows σ0 σ → slots_fresh σ0 σ vars →
  for_each (bind_contrast E) paths vars σ = (σ', Ok vars') →
  slots_fresh σ0 σ' vars'.
Proof.
  revert vars σ. induction paths as [|p paths IH]; intros vars σ G0 Hinv.
  { by intros [= <- <-]. }
  cbn [for_each]. rewrite bind_contrast_branch.
  destruct (branch_of p) as [k0|]; [|exact (IH vars σ G0 Hinv)].
  unfold mbind at 1, M_bind at 1. unfold mbind at 1, M_bind at 1.
  destruct (load_volume E p σ) as [σ1 [b|e]] eqn:Hl; [|discriminate].
  destruct (load_volume_inv _ _ _ _ _ Hl) as (Hf & Hs & G1).
  apply IH; [by eapply grows_trans|].
  destruct Hinv as [Hold Hne]. split.
  - intros k b'. rewrite slot_set_slot. destruct (decide (k = k0)) as [->|_].
    + intros [= <-]. split; [by eapply grows_fresh|done].
    + intros Hk. destruct (Hold _ _ Hk) as [H0 [a Ha]].
      split; [done|]. exists a. by eapply grows_lookup.
  - intros k k' b1 b2 Hkk. rewrite !slot_set_slot.
    destruct (decide (k = k0)) as [->|_], (decide (k' = k0)) as [->|_]; try done.
    + intros [= <-] Hk'. destruct (Hold _ _ Hk') as [_ [a Ha]]. intros Heq.
      rewrite Heq, Ha in Hf. discriminate.
    + intros Hk [= <-]. destruct (Hold _ _ Hk) as [_ [a Ha]]. intros Heq.
      rewrite <- Heq, Ha in Hf. discriminate.
    + by apply Hne.
Qed.

(** X9. When [get_img_arrays] returns, the three data arrays are objects
    that did not exist before the call and are pairwise distinct, also
    when two slots were loaded from the same voxels; no object that
    existed before was changed. *)
Theorem get_img_arrays_allocates_distinct_arrays E paths σ σ' v :
  get_img_arrays E paths σ = (σ', Ok v) →
  (∀ l a, heap σ !! l = Some a → heap σ' !! l = Some a) ∧
  heap σ !! t1w_data v = None ∧ heap σ !! pdw_data v = None ∧ heap σ !! mtw_data v = None ∧
  t1w_data v ≠ pdw_data v ∧ t1w_data v ≠ mtw_data v ∧ pdw_data v ≠ mtw_data v.
Proof.
  intros Hrun.
  pose proof (get_img_arrays_grows _ _ _ _ _ Hrun) as G.
  split; [intros l a; by apply grows_lookup|].
  destruct (for_each (bind_contrast E) paths (Locals None None None) σ)
    as [σ1 [vars|e]] eqn:Hloop.
  2: { unfold get_img_arrays in Hrun. by rewrite (bind_raise _ _ _ _ _ Hloop) in Hrun. }
  rewrite (get_img_arrays_after_loop _ _ _ _ _ Hloop) in Hrun.
  assert (Hinv : slots_fresh σ σ1 vars).
  { eapply loop_slots_fresh; [apply grows_refl| |exact Hloop].
    split; [by intros []|by intros [] []]. }
  unfold volumes_of in Hrun.
  destruct (t1w vars) as [a|] eqn:H1; [|discriminate].
  destruct (pdw vars) as [b|] eqn:H2; [|discriminate].
  destruct (mtw vars) as [c|] eqn:H3; [|discriminate].
  injection Hrun as <- <-. simpl.
  destruct Hinv as [Hold Hne].
  destruct (Hold T1w a H1) as [? _], (Hold PDw b H2) as [? _], (Hold MTw c H3) as [? _].
  repeat split; try done.
  - by apply (Hne T1w PDw).
  - by apply (Hne T1w MTw).
  - by apply (Hne PDw MTw).
Qed.

Lemma get_img_arrays_allocates_distinct_arrays_witness :
  (∀ l a, heap empty_world !! l = Some a → heap demo_loaded !! l = Some a) ∧
  heap empty_world !! t1w_data demo_volumes = None ∧
  heap empty_world !! pdw_data demo_volumes = None ∧
  heap empty_world !! mtw_data demo_volumes = None ∧
  t1w_data demo_volumes ≠ pdw_data demo_volumes ∧
  t1w_data demo_volumes ≠ mtw_data demo_volumes ∧
  pdw_data demo_volumes ≠ mtw_data demo_volumes.
Proof.
  exact (get_img_arrays_allocates_distinct_arrays demo_E demo_paths empty_world
           demo_loaded demo_volumes demo_loading).
Defined.

Lemma bind_cong {A B} (m1 m2 : M A) (f : A → M B) σ σ' :
  m1 σ = m2 σ' → (m1 ≫= f) σ = (m2 ≫= f) σ'.
Proof. unfold mbind, M_bind. by intros ->. Qed.

Lemma for_each_app {A S} (body : S → A → M S) (l1 l2 : list A) (s : S) σ :
  for_each body (l1 ++ l2) s σ = (s' ← for_each body l1 s; for_each body l2 s') σ.
Proof.
  revert s σ. induction l1 as [|a l1 IH]; intros s σ; [done|].
  cbn [for_each app].
  destruct (body s a σ) as [σ1 [s1|e]] eqn:Hb.
  - rewrite (bind_ok _ _ _ _ _ Hb), IH. apply bind_cong.
    by rewrite (bind_ok _ _ _ _ _ Hb).
  - rewrite (bind_raise _ _ _ _ _ Hb). symmetry. apply bind_raise.
    by rewrite (bind_raise _ _ _ _ _ Hb).
Qed.

(** X10. The first candidate that takes a branch of the loop but cannot
    be read as an image (the candidates before it being readable) aborts
    the run with the loader's exception; no compositor call was made and
    no file written.  A JSON sidecar that carries the echo token and a
    contrast token is such a candidate. *)
Theorem unreadable_candidate_aborts
    E path2img echo reg subID contrast path2save σ rs pre p post k :
  parse_reg reg σ = (σ, Ok rs) →
  get_img_paths E path2img echo σ = (σ, Ok (pre ++ p :: post)) →
  loadable E pre →
  branch_of p = Some k → nib_load E p = None →
  ∃ σ',
    main E path2img echo reg subID contrast path2save σ = (σ', Raise ImageFileError) ∧
    written σ' = written σ ∧ calls σ' = calls σ.
Proof.
  intros Hreg Hpaths Hload Hb Hnone.
  destruct (loop_slots E pre (Locals None None None) σ Hload)
    as (vars & σ1 & Hloop & [_ (_ & Hw & _ & Hc)] & _).
  exists σ1. split; [|done].
  unfold main. step Hreg. step Hpaths. apply bind_raise.
  unfold get_img_arrays. apply bind_raise.
  rewrite for_each_app. step Hloop.
  cbn [for_each]. apply bind_raise. rewrite bind_contrast_branch, Hb.
  apply bind_raise. unfold load_volume. by rewrite Hnone.
Qed.

Lemma unreadable_candidate_aborts_witness :
  ∃ σ',
    main (demo_env sidecar_files demo_load) "/data" (Py.Str "1") (Py.Str "100") "sub1"
      "all" "/out" empty_world = (σ', Raise ImageFileError) ∧
    written σ' = written empty_world ∧ calls σ' = calls empty_world.
Proof.
  apply (unreadable_candidate_aborts (demo_env sidecar_files demo_load) "/data"
           (Py.Str "1") (Py.Str "100") "sub1" "all" "/out" empty_world (RegInt 100)
           [] "/data/sub1_t1_e1.json"
           ["/data/sub1_t1_e1.nii"; "/data/sub1_pd_e1.nii"; "/data/sub1_mt_e1.nii"] T1w
           eq_refl eq_refl); [|reflexivity|reflexivity].
  intros p Hp. by apply elem_of_nil in Hp.
Defined.

(** X11. When [--reg] is not given, [main] receives the integer default
    of the parser and stops at its first test, ['[' in reg], with
    [TypeError]: nothing is listed, loaded, composed or written. *)
Theorem default_reg_is_rejected E path2img echo (n : Z) subID contrast path2save σ :
  main E path2img echo (Py.Int n) subID contrast path2save σ = (σ, Raise TypeError).
Proof. unfold main. by apply bind_raise. Qed.

(** ** Saving *)

Lemma save_mprage_like_effect E l aff path2save subID reg echo (m : ContrastMode) σ xs :
  heap σ !! l = Some (F32Array xs) →
  ∃ σ',
    save_mprage_like E l aff path2save subID reg echo (weight_of m) σ = (σ', Ok ()) ∧
    written σ' = written σ ++ [(artifact_path path2save subID reg echo (weight_of m), xs, aff)] ∧
    made_dirs σ' = (if dir_exists E σ (save_dir path2save) then made_dirs σ
                    else made_dirs σ ++ [save_dir path2save]) ∧
    calls σ' = calls σ ∧ heap σ ⊆ heap σ'.
Proof.
  intros Hl. unfold save_mprage_like. cbv zeta.
  rewrite (bind_ok (os_path_exists E _) _ σ σ _ eq_refl).
  fold (save_dir path2save). fold (dir_exists E σ (save_dir path2save)).
  set (b := dir_exists E σ (save_dir path2save)).
  assert (∃ σa, (if negb b then os_makedirs (save_dir path2save) else mret ()) σ = (σa, Ok ()) ∧
                heap σa = heap σ ∧ written σa = written σ ∧ calls σa = calls σ ∧
                made_dirs σa = (if b then made_dirs σ else made_dirs σ ++ [save_dir path2save]))
    as (σa & Ea & Hh & Hw & Hc & Hd).
  { destruct b; eexists; (split; [reflexivity|]); done. }
  step Ea.
  destruct (map_f32_spec id l σa xs) as (l2 & σ2 & E2 & F2 & N2 & [G2 (D2 & W2 & _ & C2)]);
    [by rewrite Hh|].
  unfold Np.astype_f32. step E2.
  assert ((if String.eqb (weight_of m) "all"
           then Some (img_name subID "mprage-like" (Py.str echo) (weight_of m) (Py.str reg))
           else if String.eqb (weight_of m) "PD"
           then Some (img_name subID "mprage-like" (Py.str echo) (weight_of m) (Py.str reg))
           else if String.eqb (weight_of m) "MT"
           then Some (img_name subID "mprage-like" (Py.str echo) (weight_of m) (Py.str reg))
           else None)
          = Some (img_name subID "mprage-like" (Py.str echo) (weight_of m) (Py.str reg))) as ->
    by (by destruct m).
  rewrite (bind_ok (read_local _ (Some _)) _ σ2 σ2 _ eq_refl).
  unfold nib_save. cbn [fst snd].
  erewrite (bind_ok (_ ≫= _)); last first.
  { step (read_f32_run _ _ _ N2). reflexivity. }
  eexists. split; [reflexivity|]. simpl.
  rewrite list_fmap_id, W2, Hw, C2, Hc, D2, Hd. rewrite <- Hh.
  repeat split; done.
Qed.

Lemma dir_exists_after E σ σ' p :
  made_dirs σ' = (if dir_exists E σ p then made_dirs σ else made_dirs σ ++ [p]) →
  dir_exists E σ' p = true.
Proof.
  intros H. unfold dir_exists in *. rewrite H.
  destruct (path_exists E p); [done|]. simpl.
  destruct (bool_decide (p ∈ made_dirs σ)) eqn:Hb; [by rewrite Hb|].
  apply bool_decide_eq_true. set_solver.
Qed.

(** X12. For a mode among 'all', 'PD' and 'MT', [save_mprage_like]
    writes exactly one file,
    <path2save>/mprage-like/<subID>_mprage-like_e<echo>_<weight>_reg<reg>.nii,
    holding the voxels and the affine it was given; it changes no existing
    array, leaves the folder "mprage-like" existing, and creates nothing
    when that folder already existed. *)
Theorem save_writes_one_copy E l aff path2save subID reg echo (m : ContrastMode) σ xs :
  heap σ !! l = Some (F32Array xs) →
  ∃ σ',
    save_mprage_like E l aff path2save subID reg echo (weight_of m) σ = (σ', Ok ()) ∧
    written σ' = written σ ++
      [(Py.path_join (Py.path_join path2save "mprage-like")
          (subID +:+ "_mprage-like_e" +:+ Py.str echo +:+ "_" +:+ weight_of m +:+
           "_reg" +:+ Py.str reg +:+ ".nii"), xs, aff)] ∧
    (∀ l' a, heap σ !! l' = Some a → heap σ' !! l' = Some a) ∧
    dir_exists E σ' (save_dir path2save) = true ∧
    (dir_exists E σ (save_dir path2save) = true → made_dirs σ' = made_dirs σ).
Proof.
  intros Hl.
  destruct (save_mprage_like_effect E l aff path2save subID reg echo m σ xs Hl)
    as (σ' & Hrun & Hw & Hd & _ & Hh).
  exists σ'. split; [exact Hrun|]. split; [exact Hw|].
  split; [intros l' a Hl'; by eapply lookup_weaken|].
  split; [by eapply dir_exists_after|].
  intros Hex. by rewrite Hex in Hd.
Qed.

Lemma save_writes_one_copy_witness :
  ∃ σ',
    save_mprage_like demo_E 0%nat [] "/out" "sub1" (Py.Int 100) (Py.Int 1) (weight_of MT)
      demo_heap_world = (σ', Ok ()) ∧
    written σ' = written demo_heap_world ++
      [(Py.path_join (Py.path_join "/out" "mprage-like")
          ("sub1" +:+ "_mprage-like_e" +:+ Py.str (Py.Int 1) +:+ "_" +:+ weight_of MT +:+
           "_reg" +:+ Py.str (Py.Int 100) +:+ ".nii"),
        [F32.of_int 150; F32.of_int 7], [])] ∧
    (∀ l' a, heap demo_heap_world !! l' = Some a → heap σ' !! l' = Some a) ∧
    dir_exists demo_E σ' (save_dir "/out") = true ∧
    (dir_exists demo_E demo_heap_world (save_dir "/out") = true →
     made_dirs σ' = made_dirs demo_heap_world).
Proof.
  exact (save_writes_one_copy demo_E 0%nat [] "/out" "sub1" (Py.Int 100) (Py.Int 1) MT
           demo_heap_world [F32.of_int 150; F32.of_int 7] eq_refl).
Defined.

(** ** Sweeps of any length *)

Lemma good_prefix_all rs : forallb parses rs = true → good_prefix rs = rs.
Proof.
  induction rs as [|r rs IH]; [done|]. simpl.
  intros [Hr Hrs]%andb_true_iff. rewrite Hr. by rewrite IH.
Qed.

Lemma parses_int r : parses r = true → ∃ n, Py.int r = Some n.
Proof. unfold parses. intros [n Hn]%bool_decide_eq_true. by exists n. Qed.

Lemma split_nonempty c s : Py.split c s ≠ [].
Proof.
  destruct s as [|a s]; [done|]. simpl.
  destruct (Ascii.eqb a c); [done|]. by destruct (Py.split c s).
Qed.

Lemma split_length c s : length (Py.split c s) = S (count_char c s).
Proof.
  induction s as [|a s IH]; [done|]. simpl.
  destruct (Ascii.eqb a c); simpl; [by rewrite IH|].
  destruct (Py.split c s); simpl in *; lia.
Qed.

Lemma count_char_remove c c' s :
  Ascii.eqb c c' = false → count_char c (Py.remove_char c' s) = count_char c s.
Proof.
  intros Hne. induction s as [|a s IH]; [done|]. simpl.
  destruct (Ascii.eqb a c') eqn:Ha; simpl; rewrite IH; [|done].
  apply Ascii.eqb_eq in Ha as ->. rewrite Ascii.eqb_sym in Hne. by rewrite Hne.
Qed.

(** X13. A spec that contains "[" is always read as a sweep, and the
    sweep has one element more than the spec has commas, empty elements
    included: "[]" is a sweep of one empty element and a trailing comma
    adds one. *)
Theorem bracketed_spec_elements (s : string) (σ : world) :
  Py.contains "[" s = true →
  ∃ rs, parse_reg (Py.Str s) σ = (σ, Ok (RegList rs)) ∧
        length rs = S (count_char "," s).
Proof.
  intros Hs. exists (tokens s). split; [unfold parse_reg; by rewrite Hs|].
  unfold tokens. by rewrite split_length, !count_char_remove.
Qed.

Lemma bracketed_spec_elements_witness :
  ∃ rs, parse_reg (Py.Str "[0, 100, 300,]") empty_world = (empty_world, Ok (RegList rs)) ∧
        length rs = S (count_char "," "[0, 100, 300,]").
Proof. exact (bracketed_spec_elements "[0, 100, 300,]" empty_world eq_refl). Defined.

Lemma sweep_dirs E v path2save subID echo (m : ContrastMode) xs ys zs rs σ :
  inputs_at (t1w_data v) (pdw_data v) (mtw_data v) xs ys zs σ →
  forallb parses rs = true →
  ∃ σ',
    for_each (sweep_body E v path2save subID echo (weight_of m)) rs () σ = (σ', Ok ()) ∧
    made_dirs σ' =
      (if dir_exists E σ (save_dir path2save) || bool_decide (rs = [])
       then made_dirs σ else made_dirs σ ++ [save_dir path2save]).
Proof.
  revert σ. induction rs as [|r rs IH]; intros σ Hin Hall.
  { exists σ. split; [done|]. by rewrite orb_true_r. }
  simpl in Hall. apply andb_true_iff in Hall as [Hr Hall].
  destruct (parses_int _ Hr) as [n Hn].
  assert (Hpy : py_int r σ = (σ, Ok n)) by (unfold py_int; by rewrite Hn).
  destruct (mprage_like_img_run _ _ _ _ _ _ n m σ Hin)
    as (l & σ1 & E1 & F1 & N1 & S1 & D1 & _).
  destruct (save_mprage_like_effect E l (t1w_affine v) path2save subID (Py.Str r) echo m σ1 _ N1)
    as (σ2 & E2 & _ & D2 & _ & S2).
  assert (Hex : dir_exists E σ1 (save_dir path2save) = dir_exists E σ (save_dir path2save))
    by (unfold dir_exists; by rewrite D1).
  destruct (IH σ2) as (σ' & E' & D'); [|done|].
  { eapply inputs_at_weaken; [|exact Hin]. by etrans. }
  exists σ'. split.
  { cbn [for_each]. rewrite (bind_ok _ _ σ σ2 ()); [exact E'|]. unfold sweep_body.
    step Hpy. step E1. exact E2. }
  rewrite D', (dir_exists_after E σ1 σ2 _ D2), orb_true_l, D2, Hex, D1.
  rewrite bool_decide_eq_false_2 by done. by rewrite orb_false_r.
Qed.

Section Sweep.
Variables (E : env) (path2img subID path2save s : string) (echo : Py.value)
  (m : ContrastMode) (σ σ1 : world) (paths : list string) (v : volumes)
  (xs ys zs : list F).
Hypothesis Hbracket : Py.contains "[" s = true.
Hypothesis Hparse : forallb parses (tokens s) = true.
Hypothesis Hpaths : get_img_paths E path2img echo σ = (σ, Ok paths).
Hypothesis Harr : get_img_arrays E paths σ = (σ1, Ok v).
Hypothesis Hin : inputs_at (t1w_data v) (pdw_data v) (mtw_data v) xs ys zs σ1.

(** X14. For a bracketed spec of any length whose elements are all
    integer literals, once the three volumes are loaded with one shape,
    [main] returns normally after one compositor call and one written
    file per element, in the order of the spec; each file holds the
    cleaned ratios for its own element and the affine of the T1 volume. *)
Theorem sweep_runs_every_element :
  ∃ σ',
    main E path2img echo (Py.Str s) subID (weight_of m) path2save σ = (σ', Ok ()) ∧
    calls σ' = calls σ ++ ((λ r, (reg_value r, weight_of m)) <$> tokens s) ∧
    written σ' = written σ ++ (artifact m v xs ys zs path2save subID echo <$> tokens s).
Proof.
  destruct (main_sweep_run E path2img echo s subID m path2save σ paths σ1 v xs ys zs
              Hbracket Hpaths Harr Hin) as (σ' & Hrun & Hc & Hw).
  rewrite Hparse in Hrun. rewrite good_prefix_all in Hc, Hw by done. by exists σ'.
Qed.

(** X15. In such a sweep two written files have the same path exactly
    when their elements are the same text: the paths are pairwise
    distinct if and only if no element is repeated.  Elements are
    compared as written, so "100" and " 100" give two files, and a
    repeated element writes the same path twice. *)
Theorem sweep_files_collide_only_on_repeated_element :
  ∃ σ' new,
    main E path2img echo (Py.Str s) subID (weight_of m) path2save σ = (σ', Ok ()) ∧
    written σ' = written σ ++ new ∧
    length new = length (tokens s) ∧
    (NoDup new.*1.*1 ↔ NoDup (tokens s)).
Proof.
  destruct (main_sweep_run E path2img echo s subID m path2save σ paths σ1 v xs ys zs
              Hbracket Hpaths Harr Hin) as (σ' & Hrun & Hc & Hw).
  rewrite Hparse in Hrun. rewrite good_prefix_all in Hw by done.
  exists σ', (artifact m v xs ys zs path2save subID echo <$> tokens s).
  split; [exact Hrun|]. split; [exact Hw|]. split; [by rewrite length_fmap|].
  rewrite <- !list_fmap_compose.
  assert (Inj (=) (=) (λ r, artifact_path path2save subID (Py.Str r) echo (weight_of m)))
    by (intros r1 r2 H; by apply artifact_path_inj in H).
  by apply (NoDup_fmap _).
Qed.

(** X16. However many elements such a sweep has, the folder "mprage-like"
    is created once when it did not exist and not at all when it did. *)
Theorem sweep_creates_folder_once :
  ∃ σ',
    main E path2img echo (Py.Str s) subID (weight_of m) path2save σ = (σ', Ok ()) ∧
    made_dirs σ' =
      (if dir_exists E σ (save_dir path2save) then made_dirs σ
       else made_dirs σ ++ [save_dir path2save]).
Proof.
  destruct (get_img_arrays_grows _ _ _ _ _ Harr) as [_ (Hd & _)].
  destruct (sweep_dirs E v path2save subID echo m xs ys zs (tokens s) σ1 Hin Hparse)
    as (σ' & Hrun & Hdirs).
  exists σ'. split.
  { unfold main.
    assert (Hreg : parse_reg (Py.Str s) σ = (σ, Ok (RegList (tokens s))))
      by (unfold parse_reg; by rewrite Hbracket).
    step Hreg. step Hpaths. step Harr. exact Hrun. }
  rewrite Hdirs. unfold dir_exists. rewrite Hd.
  rewrite (bool_decide_eq_false_2 (tokens s = [])) by apply split_nonempty.
  by rewrite orb_false_r.
Qed.

End Sweep.

Lemma sweep_runs_every_element_witness :
  ∃ σ',
    main demo_E "/data" (Py.Str "1") (Py.Str "[0,100, 7,7]") "sub1" (weight_of MT) "/out"
      empty_world = (σ', Ok ()) ∧
    calls σ' = calls empty_world ++
      ((λ r, (reg_value r, weight_of MT)) <$> tokens "[0,100, 7,7]") ∧
    written σ' = written empty_world ++
      (artifact MT demo_volumes demo_t1 demo_pd demo_pd "/out" "sub1" (Py.Str "1")
         <$> tokens "[0,100, 7,7]").
Proof.
  exact (sweep_runs_every_element demo_E "/data" "sub1" "/out" "[0,100, 7,7]" (Py.Str "1")
           MT empty_world demo_loaded demo_paths demo_volumes demo_t1 demo_pd demo_pd
           eq_refl eq_refl demo_listing demo_loading demo_inputs).
Defined.

Lemma sweep_files_collide_only_on_repeated_element_witness :
  ∃ σ' new,
    main demo_E "/data" (Py.Str "1") (Py.Str "[0,100, 7,7]") "sub1" (weight_of MT) "/out"
      empty_world = (σ', Ok ()) ∧
    written σ' = written empty_world ++ new ∧
    length new = length (tokens "[0,100, 7,7]") ∧
    (NoDup new.*1.*1 ↔ NoDup (tokens "[0,100, 7,7]")).
Proof.
  exact (sweep_files_collide_only_on_repeated_element demo_E "/data" "sub1" "/out"
           "[0,100, 7,7]" (Py.Str "1") MT empty_world demo_loaded demo_paths demo_volumes
           demo_t1 demo_pd demo_pd eq_refl eq_refl demo_listing demo_loading demo_inputs).
Defined.

Lemma sweep_creates_folder_once_witness :
  ∃ σ',
    main demo_E "/data" (Py.Str "1") (Py.Str "[0,100, 7,7]") "sub1" (weight_of MT) "/out"
      empty_world = (σ', Ok ()) ∧
    made_dirs σ' =
      (if dir_exists demo_E empty_world (save_dir "/out") then made_dirs empty_world
       else made_dirs empty_world ++ [save_dir "/out"]).
Proof.
  exact (sweep_creates_folder_once demo_E "/data" "sub1" "/out" "[0,100, 7,7]" (Py.Str "1")
           MT empty_world demo_loaded demo_paths demo_volumes demo_t1 demo_pd demo_pd
           eq_refl eq_refl demo_listing demo_loading demo_inputs).
Defined.

(** ** From the directory to the file *)

(** X17. The whole run on an integer spec: when the directory is listed,
    every kind has a candidate, the candidates load and the three volumes
    bound (the last candidate of each kind) have one shape, [main] returns
    normally after one compositor call and writes one file, named after
    the parsed integer, that holds the cleaned ratios of those three
    volumes and the affine of the T1 volume. *)
Theorem main_end_to_end
    E path2img echo s n subID (m : ContrastMode) path2save σ paths p1 p2 p3 f1 f2 f3 :
  Py.contains "[" s = false → Py.int s = Some n →
  get_img_paths E path2img echo σ = (σ, Ok paths) →
  loadable E paths →
  last_match T1w paths = Some p1 → nib_load E p1 = Some f1 →
  last_match PDw paths = Some p2 → nib_load E p2 = Some f2 →
  last_match MTw paths = Some p3 → nib_load E p3 = Some f3 →
  length (nii_data f1) = length (nii_data f2) →
  length (nii_data f2) = length (nii_data f3) →
  ∃ σ',
    main E path2img echo (Py.Str s) subID (weight_of m) path2save σ = (σ', Ok ()) ∧
    calls σ' = calls σ ++ [(n, weight_of m)] ∧
    written σ' = written σ ++
      [(artifact_path path2save subID (Py.Int n) echo (weight_of m),
        cleanup <$> raw_array m n (nii_data f1) (nii_data f2) (nii_data f3),
        nii_affine f1)].
Proof.
  intros Hs Hn Hpaths Hload H1 L1 H2 L2 H3 L3 Len12 Len23.
  destruct (loop_slots E paths (Locals None None None) σ Hload) as (vars & σ1 & Hloop & _ & Hsl).
  pose proof (Hsl T1w) as S1. pose proof (Hsl PDw) as S2. pose proof (Hsl MTw) as S3.
  unfold slot_after in S1, S2, S3. rewrite H1 in S1. rewrite H2 in S2. rewrite H3 in S3.
  destruct S1 as ([d1 a1 h1] & Hv1 & (g1 & Hg1 & A1 & _ & D1)).
  destruct S2 as ([d2 a2 h2] & Hv2 & (g2 & Hg2 & _ & _ & D2)).
  destruct S3 as ([d3 a3 h3] & Hv3 & (g3 & Hg3 & _ & _ & D3)).
  simpl in *. rewrite L1 in Hg1. rewrite L2 in Hg2. rewrite L3 in Hg3.
  injection Hg1 as <-. injection Hg2 as <-. injection Hg3 as <-.
  pose proof (get_img_arrays_after_loop _ _ _ _ _ Hloop) as Harr.
  unfold volumes_of in Harr. rewrite Hv1, Hv2, Hv3 in Harr. simpl in Harr.
  destruct (main_scalar_run E path2img echo s n subID m path2save σ paths σ1 _
              (nii_data f1) (nii_data f2) (nii_data f3) Hs Hn Hpaths Harr)
    as (σ' & Hrun & Hc & Hw).
  { by repeat split. }
  exists σ'. simpl in Hw. rewrite A1 in Hw. done.
Qed.

Lemma demo_loadable : loadable demo_E demo_paths.
Proof. intros p Hp _. in_listing Hp ltac:(by eexists). Defined.

Lemma main_end_to_end_witness :
  ∃ σ',
    main demo_E "/data" (Py.Str "1") (Py.Str " +0100 ") "sub1" (weight_of ALL) "/out"
      empty_world = (σ', Ok ()) ∧
    calls σ' = calls empty_world ++ [(100, weight_of ALL)] ∧
    written σ' = written empty_world ++
      [(artifact_path "/out" "sub1" (Py.Int 100) (Py.Str "1") (weight_of ALL),
        cleanup <$> raw_array ALL 100 (nii_data (demo_volume 150))
                      (nii_data (demo_volume 100)) (nii_data (demo_volume 100)),
        nii_affine (demo_volume 150))].
Proof.
  exact (main_end_to_end demo_E "/data" (Py.Str "1") " +0100 " 100 "sub1" ALL "/out"
           empty_world demo_paths "/data/sub1_t1_e1.nii" "/data/sub1_pd_e1.nii"
           "/data/sub1_mt_e1.nii" (demo_volume 150) (demo_volume 100) (demo_volume 100)
           eq_refl eq_refl demo_listing demo_loadable
           eq_refl eq_refl eq_refl eq_refl eq_refl eq_refl eq_refl eq_refl).
Defined.
